(** * lambda.py: Church encodings and the Y combinator

    The program is a collection of Python closures.  Every [lambda] (and
    [def]) of the source has a code label; a closure is a label together
    with the values of the free variables it captured, and the body of
    each label is written once, in a small monad whose only effect is
    "call this value with these arguments".  Calls are resolved by an
    evaluator that counts nested calls, so that self-application ([U],
    [Y]) and the unbounded recursion of [numeral] on negative numbers
    are written down as the source has them.

    Host values are integers, strings, [None], the closures of the
    program and callables supplied by the caller ([ext]); the outcome of
    such a callable depends on what it captured and on its arguments
    only.  Floats and booleans are left out.  The recursion limit of the
    interpreter is a resource bound of the host and no part of the
    model: the call stack is unbounded. *)

From Stdlib Require Import ZArith List String Lia Bool Arith.
Import ListNotations.
Local Open Scope Z_scope.
Local Open Scope list_scope.

Set Implicit Arguments.
Set Warnings "-register-all".

(** ** Code labels: one per [lambda] / [def] of the source *)

Inductive lam : Type :=
| ID_z                                  (* ID = lambda z: z *)
| VOID_raise                            (* def _VOID(_) *)
| TRUE_true_value | TRUE_false_val      (* TRUE *)
| FALSE_true_value | FALSE_false_value  (* FALSE *)
| IF_cond | IF_true_value | IF_false_value
| compose_f_g | compose_x
| ONE_f | TWO_f | THREE_f
| numeral_n | numeral_f | numeral_z
| INC_x
| natify_f
| SUCC_n | SUCC_f | SUCC_z
| SUM_n | SUM_m | SUM_f
| MULT_n | MULT_m
| PAIR_a | PAIR_b | PAIR_f
| LEFT_pair | LEFT_a | LEFT_b
| RIGHT_pair | RIGHT_a | RIGHT_b
| NIL_onnil | NIL_onlist
| CONS_hd | CONS_tl | CONS_onnil | CONS_onlist
| NILP_lst | NILP_thunk | NILP_hd | NILP_tl
| HEAD_lst | HEAD_hd | HEAD_tl
| TAIL_lst | TAIL_hd | TAIL_tl
| U_f
| Y1_h | Y1_F | Y1_x                    (* line 159: the operator *)
| Y2_h | Y2_F | Y2_x                    (* line 160: the operand  *)
| fact_f | fact_n.                      (* line 200: the factorial generator *)

(** Faults of the host: the three [TypeError]s the program can run into,
  and a plain [Exception] with its message. *)
Inductive exn : Type :=
| TypeError_not_callable
| TypeError_arguments
| TypeError_operand
| Exception (msg : string).

Section Model.

(** Callables that come from outside the program. *)
Variable ext : Type.

Inductive value : Type :=
| VInt (n : Z)
| VStr (s : string)
| VNone
| VClo (l : lam) (env : list value)
| VExt (e : ext) (env : list value).

(** A computation returns, raises, or calls a value and goes on with
    what the call returned. *)
Inductive comp : Type :=
| Ret (v : value)
| Raise (e : exn)
| Call (f : value) (args : list value) (k : value -> comp).

Fixpoint bind (c : comp) (g : value -> comp) : comp :=
  match c with
  | Ret v => g v
  | Raise e => Raise e
  | Call f args k => Call f args (fun r => bind (k r) g)
  end.

Definition call (f : value) (args : list value) : comp := Call f args Ret.

Inductive result : Type :=
| Done (v : value)
| Fault (e : exn).

End Model.

Arguments VInt {ext} n.
Arguments VStr {ext} s.
Arguments VNone {ext}.
Arguments VClo {ext} l env.
Arguments VExt {ext} e env.
Arguments Ret {ext} v.
Arguments Raise {ext} e.
Arguments Call {ext} f args k.
Arguments Done {ext} v.
Arguments Fault {ext} e.

Declare Scope py_scope.
Delimit Scope py_scope with py.
Notation "x <- c ;; k" := (bind c (fun x => k))
(at level 61, c at next level, right associativity) : py_scope.
Local Open Scope py_scope.

(** ** Host operators used by the program *)

Section Operators.

Context {ext : Type}.
Local Abbreviation value := (value ext).
Local Abbreviation comp := (comp ext).

(** [n == 0]: among the values of the model only the integer 0 equals 0. *)
Definition py_eq0 (n : value) : bool :=
  match n with
  | VInt k => k =? 0
  | _ => false
  end.

(** [n - 1] on the values of the model: an integer is decremented; on a
    string, [None] or a callable it is the operand [TypeError]. *)
Definition py_sub1 (n : value) : comp :=
  match n with
  | VInt k => Ret (VInt (k - 1))
  | _ => Raise TypeError_operand
  end.

(** [x + 1] on the values of the model: an integer is incremented; on a
    string, [None] or a callable it is the operand [TypeError]. *)
Definition py_add1 (x : value) : comp :=
  match x with
  | VInt k => Ret (VInt (k + 1))
  | _ => Raise TypeError_operand
  end.

(** [n <= 0] on the values of the model: an integer is compared; on a
    string, [None] or a callable the comparison is the operand
    [TypeError].  Floats, which the host compares too, are not among the
    values. *)
Definition py_le0 (n : value) : option bool :=
  match n with
  | VInt k => Some (k <=? 0)
  | _ => None
  end.

(** [s * k] on a string: [k] copies, none when [k <= 0]. *)
Fixpoint str_repeat (k : nat) (s : string) : string :=
  match k with
  | O => EmptyString
  | S k' => (s ++ str_repeat k' s)%string
  end.

(** [a * b] on the values of the model: integers multiply, a string is
    repeated, anything else is the operand [TypeError]. *)
Definition py_mul (a b : value) : comp :=
  match a, b with
  | VInt x, VInt y => Ret (VInt (x * y))
  | VInt x, VStr s => Ret (VStr (str_repeat (Z.to_nat x) s))
  | VStr s, VInt y => Ret (VStr (str_repeat (Z.to_nat y) s))
  | _, _ => Raise TypeError_operand
  end.

End Operators.

(** ** The program *)

Section Program.

Context {ext : Type}.
Local Abbreviation value := (value ext).
Local Abbreviation comp := (comp ext).

Definition fn (l : lam) : value := VClo l [].

(** Module-level names. *)
Definition ID : value := fn ID_z.
Definition VOID : value := ID.
Definition _VOID : value := fn VOID_raise.
Definition TRUE : value := fn TRUE_true_value.
Definition FALSE : value := fn FALSE_true_value.
Definition IF_ : value := fn IF_cond.
Definition compose : value := fn compose_f_g.
Definition ONE : value := fn ONE_f.
Definition TWO : value := fn TWO_f.
Definition THREE : value := fn THREE_f.
Definition numeral : value := fn numeral_n.
Definition INC : value := fn INC_x.
Definition natify : value := fn natify_f.
Definition SUCC : value := fn SUCC_n.
Definition SUM : value := fn SUM_n.
Definition MULT : value := fn MULT_n.
Definition PAIR : value := fn PAIR_a.
Definition LEFT : value := fn LEFT_pair.
Definition RIGHT : value := fn RIGHT_pair.
Definition NIL : value := fn NIL_onnil.
Definition CONS : value := fn CONS_hd.
Definition NILP : value := fn NILP_lst.
Definition HEAD : value := fn HEAD_lst.
Definition TAIL : value := fn TAIL_lst.
Definition U : value := fn U_f.

(** The body of every label: captured variables, then arguments.  A
    call with the wrong number of arguments is the host's
    [TypeError]. *)
Definition body (l : lam) (env args : list value) : comp :=
  match l, env, args with
  (* ID = lambda z: z *)
  | ID_z, [], [z] => Ret z
  (* def _VOID(_): raise Exception('Cannot invoke VOID!') *)
  | VOID_raise, [], [_] => Raise (Exception "Cannot invoke VOID!")

  (* TRUE = lambda true_value: lambda false_val: true_value() *)
  | TRUE_true_value, [], [true_value] =>
      Ret (VClo TRUE_false_val [true_value])
  | TRUE_false_val, [true_value], [false_val] => call true_value []
  (* FALSE = lambda true_value: lambda false_value: false_value() *)
  | FALSE_true_value, [], [true_value] => Ret (VClo FALSE_false_value [])
  | FALSE_false_value, [], [false_value] => call false_value []

  (* IF = lambda cond: lambda true_value: lambda false_value:
            cond(true_value)(false_value) *)
  | IF_cond, [], [cond] => Ret (VClo IF_true_value [cond])
  | IF_true_value, [cond], [true_value] =>
      Ret (VClo IF_false_value [cond; true_value])
  | IF_false_value, [cond; true_value], [false_value] =>
      c <- call cond [true_value] ;; call c [false_value]

  (* compose = lambda f,g: lambda x: f(g(x)) *)
  | compose_f_g, [], [f; g] => Ret (VClo compose_x [f; g])
  | compose_x, [f; g], [x] => r <- call g [x] ;; call f [r]

  (* ONE = lambda f: f;  TWO = lambda f: compose(f, f);
     THREE = lambda f: compose(f, TWO(f)) *)
  | ONE_f, [], [f] => Ret f
  | TWO_f, [], [f] => call compose [f; f]
  | THREE_f, [], [f] => r <- call TWO [f] ;; call compose [f; r]

  (* def numeral(n):
         return lambda f: lambda z: z if n == 0 else f(numeral(n-1)(f)(z)) *)
  | numeral_n, [], [n] => Ret (VClo numeral_f [n])
  | numeral_f, [n], [f] => Ret (VClo numeral_z [n; f])
  | numeral_z, [n; f], [z] =>
      if py_eq0 n then Ret z
      else m <- py_sub1 n ;;
           a <- call numeral [m] ;;
           b <- call a [f] ;;
           r <- call b [z] ;;
           call f [r]

  (* INC = lambda x: x+1;  natify = lambda f: f(INC)(0) *)
  | INC_x, [], [x] => py_add1 x
  | natify_f, [], [f] => a <- call f [INC] ;; call a [VInt 0]

  (* SUCC = lambda n: lambda f: lambda z: f(n(f)(z)) *)
  | SUCC_n, [], [n] => Ret (VClo SUCC_f [n])
  | SUCC_f, [n], [f] => Ret (VClo SUCC_z [n; f])
  | SUCC_z, [n; f], [z] =>
      a <- call n [f] ;; r <- call a [z] ;; call f [r]

  (* SUM = lambda n: lambda m: lambda f: compose(n(f), m(f)) *)
  | SUM_n, [], [n] => Ret (VClo SUM_m [n])
  | SUM_m, [n], [m] => Ret (VClo SUM_f [n; m])
  | SUM_f, [n; m], [f] =>
      a <- call n [f] ;; b <- call m [f] ;; call compose [a; b]

  (* MULT = lambda n: lambda m: compose(n,m) *)
  | MULT_n, [], [n] => Ret (VClo MULT_m [n])
  | MULT_m, [n], [m] => call compose [n; m]

  (* PAIR = lambda a: lambda b: lambda f: f(a)(b)
     LEFT = lambda pair: pair(lambda a: lambda b: a)
     RIGHT = lambda pair: pair(lambda a: lambda b: b) *)
  | PAIR_a, [], [a] => Ret (VClo PAIR_b [a])
  | PAIR_b, [a], [b] => Ret (VClo PAIR_f [a; b])
  | PAIR_f, [a; b], [f] => r <- call f [a] ;; call r [b]
  | LEFT_pair, [], [pair_] => call pair_ [fn LEFT_a]
  | LEFT_a, [], [a] => Ret (VClo LEFT_b [a])
  | LEFT_b, [a], [b] => Ret a
  | RIGHT_pair, [], [pair_] => call pair_ [fn RIGHT_a]
  | RIGHT_a, [], [a] => Ret (VClo RIGHT_b [])
  | RIGHT_b, [], [b] => Ret b

  (* NIL = lambda onnil: lambda onlist: onnil()
     CONS = lambda hd: lambda tl: lambda onnil: lambda onlist: onlist(hd)(tl) *)
  | NIL_onnil, [], [onnil] => Ret (VClo NIL_onlist [onnil])
  | NIL_onlist, [onnil], [onlist] => call onnil []
  | CONS_hd, [], [hd] => Ret (VClo CONS_tl [hd])
  | CONS_tl, [hd], [tl] => Ret (VClo CONS_onnil [hd; tl])
  | CONS_onnil, [hd; tl], [onnil] => Ret (VClo CONS_onlist [hd; tl])
  | CONS_onlist, [hd; tl], [onlist] =>
      r <- call onlist [hd] ;; call r [tl]
  (* NILP = lambda lst: lst (lambda: TRUE) (lambda hd: lambda tl: FALSE) *)
  | NILP_lst, [], [lst] =>
      r <- call lst [fn NILP_thunk] ;; call r [fn NILP_hd]
  | NILP_thunk, [], [] => Ret TRUE
  | NILP_hd, [], [hd] => Ret (VClo NILP_tl [])
  | NILP_tl, [], [tl] => Ret FALSE
  (* HEAD = lambda lst: lst (VOID) (lambda hd: lambda tl: hd) *)
  | HEAD_lst, [], [lst] => r <- call lst [VOID] ;; call r [fn HEAD_hd]
  | HEAD_hd, [], [hd] => Ret (VClo HEAD_tl [hd])
  | HEAD_tl, [hd], [tl] => Ret hd
  (* TAIL = lambda lst: lst (VOID) (lambda hd: lambda tl: tl) *)
  | TAIL_lst, [], [lst] => r <- call lst [VOID] ;; call r [fn TAIL_hd]
  | TAIL_hd, [], [hd] => Ret (VClo TAIL_tl [])
  | TAIL_tl, [], [tl] => Ret tl

  (* U = lambda f: f(f) *)
  | U_f, [], [f] => call f [f]

  (* Y = ((lambda h: lambda F: F(lambda x: h(h)(F)(x)))
          (lambda h: lambda F: F(lambda x: h(h)(F)(x)))) *)
  | Y1_h, [], [h] => Ret (VClo Y1_F [h])
  | Y1_F, [h], [F] => call F [VClo Y1_x [h; F]]
  | Y1_x, [h; F], [x] =>
      a <- call h [h] ;; b <- call a [F] ;; call b [x]
  | Y2_h, [], [h] => Ret (VClo Y2_F [h])
  | Y2_F, [h], [F] => call F [VClo Y2_x [h; F]]
  | Y2_x, [h; F], [x] =>
      a <- call h [h] ;; b <- call a [F] ;; call b [x]

  (* lambda f: lambda n: 1 if n <= 0 else n*f(n-1) *)
  | fact_f, [], [f] => Ret (VClo fact_n [f])
  | fact_n, [f], [n] =>
      match py_le0 n with
      | None => Raise TypeError_operand
      | Some true => Ret (VInt 1)
      | Some false =>
          m <- py_sub1 n ;; r <- call f [m] ;; py_mul n r
      end

  | _, _, _ => Raise TypeError_arguments
  end.

(** What the host does with the callables it supplies. *)
Variable ext_body : ext -> list value -> list value -> comp.

Definition apply (f : value) (args : list value) : comp :=
  match f with
  | VClo l env => body l env args
  | VExt e env => ext_body e env args
  | _ => Raise TypeError_not_callable
  end.

(** Evaluation; [fuel] bounds the calls still allowed on any path, and
    [None] says the bound was reached. *)
Fixpoint run (fuel : nat) (c : comp) : option (result ext) :=
  match c with
  | Ret v => Some (Done v)
  | Raise e => Some (Fault e)
  | Call f args k =>
      match fuel with
      | O => None
      | S n =>
          match run n (apply f args) with
          | Some (Done r) => run n (k r)
          | other => other
          end
      end
  end.


(** Enough fuel yields [r]. *)
Definition evals (c : comp) (r : result ext) : Prop :=
  exists fuel, run fuel c = Some r.

(** No amount of fuel yields anything. *)
Definition diverges (c : comp) : Prop :=
  forall fuel, run fuel c = None.

(** Same outcome: the same value, the same fault, or both diverge. *)
Definition behaves_as (c1 c2 : comp) : Prop :=
  forall r, evals c1 r <-> evals c2 r.

(** The callees of an evaluation, in the order they are invoked. *)
Fixpoint callees (fuel : nat) (c : comp) : list value :=
  match c with
  | Call f args k =>
      match fuel with
      | O => []
      | S n =>
          f :: callees n (apply f args) ++
          match run n (apply f args) with
          | Some (Done r) => callees n (k r)
          | _ => []
          end
      end
  | _ => []
  end.

(** [e(x)] for an expression [e]; [f(e)] for an expression argument. *)
Definition app (e : comp) (x : value) : comp := f <- e ;; call f [x].
Definition app_to (f : value) (e : comp) : comp := x <- e ;; call f [x].

(** [f(f(...f(z)...))], [n] applications. *)
Fixpoint iter_call (n : nat) (f z : value) : comp :=
  match n with
  | O => Ret z
  | S k => r <- iter_call k f z ;; call f [r]
  end.

(** Module-level names bound to the result of a call. *)
Definition FOUR_init : comp := call numeral [VInt 4].
Definition FOUR : value := VClo numeral_f [VInt 4].
Definition EIGHT_init : comp := call numeral [VInt 8].
Definition EIGHT : value := VClo numeral_f [VInt 8].
Definition Y_init : comp := call (fn Y1_h) [fn Y2_h].
Definition Y : value := VClo Y1_F [fn Y2_h].

(** The wrappers [lambda x: h(h)(F)(x)] that [Y] hands to [F]: the one
    of the operator and the one of the operand. *)
Definition Y_self1 (F : value) : value := VClo Y1_x [fn Y2_h; F].
Definition Y_self2 (F : value) : value := VClo Y2_x [fn Y2_h; F].

(** The generator of the demonstration, line 200. *)
Definition fact_gen : value := fn fact_f.

(** Lists built with [CONS] from [NIL]. *)
Fixpoint encode_list (xs : list value) : value :=
  match xs with
  | [] => NIL
  | x :: rest => VClo CONS_onnil [x; encode_list rest]
  end.

(** Two values that cannot be told apart by applying them. *)
Definition app_equiv (s1 s2 : value) : Prop :=
  forall x, behaves_as (call s1 [x]) (call s2 [x]).

(** What the host accepts in callee position. *)
Definition callable (v : value) : bool :=
  match v with
  | VClo _ _ | VExt _ _ => true
  | _ => false
  end.

(** Two computations with the same fault or the same non-termination,
    or returning values related by [R]. *)
Definition same_upto (R : value -> value -> Prop) (c1 c2 : comp) : Prop :=
  (forall e, evals c1 (Fault e) <-> evals c2 (Fault e)) /\
  (forall v1, evals c1 (Done v1) ->
              exists v2, evals c2 (Done v2) /\ R v1 v2) /\
  (forall v2, evals c2 (Done v2) ->
              exists v1, evals c1 (Done v1) /\ R v1 v2).

(** Values alike to depth [d]: the same integer, string or [None]; or
    two callables that, applied to any one argument, fault alike, fail
    to return alike, or return values alike to depth [d - 1]. *)
Fixpoint alike (d : nat) (v1 v2 : value) : Prop :=
  match d with
  | O => True
  | S d' =>
      (callable v1 = false /\ v1 = v2) \/
      (callable v1 = true /\ callable v2 = true /\
       forall x, same_upto (alike d') (call v1 [x]) (call v2 [x]))
  end.

(** Values that no series of one-argument applications tells apart. *)
Definition indistinguishable (v1 v2 : value) : Prop :=
  forall d, alike d v1 v2.

(** A generator whose outcome depends on its self-argument only through
    what that argument does when it is applied to one argument:
    self-arguments that applications cannot tell apart give outcomes
    that applications cannot tell apart. *)
Definition uses_self_by_application (F : value) : Prop :=
  forall s1 s2, indistinguishable s1 s2 ->
  same_upto indistinguishable (call F [s1]) (call F [s2]).

(** A value that, given any [f], returns a function applying [f]
    [k] times: what [numeral], the hand-built numerals and the
    arithmetic operators produce. *)
Definition is_numeral (k : nat) (v : value) : Prop :=
  forall f, exists g,
    evals (call v [f]) (Done g) /\
    forall z, behaves_as (call g [z]) (iter_call k f z).

Definition is_int (v : value) : bool :=
  match v with
  | VInt _ => true
  | _ => false
  end.

End Program.

Notation "e $ x" := (app e x) (at level 40, left associativity) : py_scope.

(** ** Callables of a caller: thunks and two generators *)

Inductive host : Type :=
| thunk_a          (* lambda: "a" *)
| thunk_b          (* lambda: "b" *)
| thunk_boom       (* a thunk that raises when called *)
| pad_self         (* lambda self: lambda a, *b: a if b else self(a, 1) *)
| pad_x
| add_self         (* lambda self: lambda a: lambda b:
                        b if a <= 0 else self(a-1)(b+1) *)
| add_a
| add_b.

Definition host_body (h : host) (env args : list (value host))
  : comp host :=
  match h, env, args with
  | thunk_a, [], [] => Ret (VStr "a")
  | thunk_b, [], [] => Ret (VStr "b")
  | thunk_boom, [], [] => Raise (Exception "unselected branch was called")
  | pad_self, [], [self] => Ret (VExt pad_x [self])
  | pad_x, [self], [a] => call self [a; VInt 1]
  | pad_x, [self], a :: _ :: _ => Ret a
  | add_self, [], [self] => Ret (VExt add_a [self])
  | add_a, [self], [a] => Ret (VExt add_b [self; a])
  | add_b, [self; a], [b] =>
      match py_le0 a with
      | None => Raise TypeError_operand
      | Some true => Ret b
      | Some false =>
          m <- py_sub1 a ;; g <- call self [m] ;;
          b' <- py_add1 b ;; call g [b']
      end
  | _, _, _ => Raise TypeError_arguments
  end.



(** A curried generator: its result captures the self-argument. *)
Definition add_gen : value host := VExt add_self [].

(** ** The demonstration and a generator that misuses [Y] *)

Inductive caller : Type :=
| driver_inc       (* lambda x: x+1, lines 166-170 *)
| driver_double    (* lambda x: 2*x, lines 172-176 *)
| eager_self.      (* lambda self: self(0) *)

Definition caller_body (c : caller) (env args : list (value caller))
  : comp caller :=
  match c, env, args with
  | driver_inc, [], [x] => py_add1 x
  | driver_double, [], [x] => py_mul (VInt 2) x
  | eager_self, [], [self] => call self [VInt 0]
  | _, _, _ => Raise TypeError_arguments
  end.

(** The expressions whose values the [__main__] block formats, in the
    order of its [print] calls (lines 166-200). *)
Definition driver : list (comp caller) :=
  let inc := VExt driver_inc [] in
  let double := VExt driver_double [] in
  [ Ret numeral $ VInt 0 $ inc $ VInt 0;
    Ret numeral $ VInt 1 $ inc $ VInt 0;
    Ret numeral $ VInt 2 $ inc $ VInt 0;
    Ret numeral $ VInt 3 $ inc $ VInt 0;
    Ret numeral $ VInt 7 $ inc $ VInt 0;
    Ret numeral $ VInt 0 $ double $ VInt 1;
    Ret numeral $ VInt 1 $ double $ VInt 1;
    Ret numeral $ VInt 2 $ double $ VInt 1;
    Ret numeral $ VInt 3 $ double $ VInt 1;
    Ret numeral $ VInt 7 $ double $ VInt 1;
    app_to natify (call numeral [VInt 0]);
    call natify [ONE];
    call natify [TWO];
    call natify [THREE];
    call natify [FOUR];
    call natify [EIGHT];
    Ret SUCC $ ONE $ INC $ VInt 0;
    Ret SUCC $ TWO $ INC $ VInt 0;
    Ret SUCC $ FOUR $ INC $ VInt 0;
    Ret SUCC $ EIGHT $ INC $ VInt 0;
    Ret SUM $ TWO $ EIGHT $ INC $ VInt 0;
    Ret MULT $ TWO $ EIGHT $ INC $ VInt 0;
    Ret Y $ fact_gen $ VInt 5 ].

(** ** Evaluation: fuel, sequencing, outcomes *)

Section Evaluation.

Context {ext : Type}.
Variable ext_body : ext -> list (value ext) -> list (value ext) -> comp ext.
Local Abbreviation value := (value ext).
Local Abbreviation comp := (comp ext).
Local Abbreviation run := (run ext_body).
Local Abbreviation evals := (evals ext_body).
Local Abbreviation behaves_as := (behaves_as ext_body).
Local Abbreviation apply := (apply ext_body).

Lemma run_mono (n : nat) :
  forall (c : comp) (r : result ext) (m : nat),
    run n c = Some r -> (n <= m)%nat -> run m c = Some r.
Proof.
  induction n as [|n IH]; intros c r m Hrun Hle.
  - destruct c; simpl in *; try discriminate; destruct m; assumption.
  - destruct c as [v|e|f args k]; simpl in *.
    + destruct m; assumption.
    + destruct m; assumption.
    + destruct m as [|m]; [lia|]. simpl.
      destruct (run n (apply f args)) as [[v|e]|] eqn:Hf; try discriminate.
      * rewrite (IH _ _ m Hf) by lia. apply (IH _ _ m); [assumption|lia].
      * rewrite (IH _ _ m Hf) by lia. assumption.
Qed.

Lemma evals_det (c : comp) (r1 r2 : result ext) :
  evals c r1 -> evals c r2 -> r1 = r2.
Proof.
  intros [n1 H1] [n2 H2].
  apply run_mono with (m := Nat.max n1 n2) in H1; [|lia].
  apply run_mono with (m := Nat.max n1 n2) in H2; [|lia].
  congruence.
Qed.

Lemma evals_ret (v : value) : evals (Ret v) (Done v).
Proof. exists O. reflexivity. Qed.

Lemma evals_raise (e : exn) : evals (Raise e) (Fault e).
Proof. exists O. reflexivity. Qed.

Lemma run_bind_done (n : nat) :
  forall (c : comp) (g : value -> comp) (v : value) (m : nat) (r : result ext),
    run n c = Some (Done v) -> run m (g v) = Some r ->
    run (n + m) (bind c g) = Some r.
Proof.
  induction n as [|n IH]; intros c g v m r Hc Hg.
  - destruct c; simpl in *; try discriminate.
    injection Hc as ->. assumption.
  - destruct c as [w|e|f args k]; simpl in Hc; try discriminate.
    + injection Hc as ->. simpl bind. apply (run_mono _ Hg). lia.
    + simpl.
      destruct (run n (apply f args)) as [[w|e]|] eqn:Hf; try discriminate.
      rewrite (run_mono _ Hf (m := (n + m)%nat)) by lia.
      eapply IH; eassumption.
Qed.

Lemma run_bind_fault (n : nat) :
  forall (c : comp) (g : value -> comp) (e : exn),
    run n c = Some (Fault e) -> run n (bind c g) = Some (Fault e).
Proof.
  induction n as [|n IH]; intros c g e Hc.
  - destruct c; simpl in *; try discriminate. assumption.
  - destruct c as [w|e'|f args k]; simpl in *; try discriminate.
    + assumption.
    + destruct (run n (apply f args)) as [[w|e']|] eqn:Hf; try discriminate.
      * apply IH. assumption.
      * assumption.
Qed.

Lemma run_bind_inv (n : nat) :
  forall (c : comp) (g : value -> comp) (r : result ext),
    run n (bind c g) = Some r ->
    (exists v, run n c = Some (Done v) /\ run n (g v) = Some r) \/
    (exists e, r = Fault e /\ run n c = Some (Fault e)).
Proof.
  induction n as [|n IH]; intros c g r H.
  - destruct c as [v|e|f args k]; simpl in *; try discriminate.
    + left. exists v. split; [reflexivity|assumption].
    + right. exists e. split; congruence.
  - destruct c as [v|e|f args k]; simpl in H.
    + left. exists v. split; [reflexivity|assumption].
    + right. exists e. split; [congruence|reflexivity].
    + destruct (run n (apply f args)) as [[w|e]|] eqn:Hf; try discriminate.
      * destruct (IH _ _ _ H) as [(v & Hk & Hg)|(e & -> & Hk)].
        -- left. exists v. split.
           ++ simpl. rewrite Hf. assumption.
           ++ apply (run_mono _ Hg). lia.
        -- right. exists e. split; [reflexivity|].
           simpl. rewrite Hf. assumption.
      * right. exists e. split; [congruence|].
        simpl. rewrite Hf. reflexivity.
Qed.

Lemma run_bind_none (n : nat) (c : comp) (g : value -> comp) :
  run n c = None -> run n (bind c g) = None.
Proof.
  intros Hc. destruct (run n (bind c g)) as [r|] eqn:Hb; [|reflexivity].
  destruct (run_bind_inv _ _ _ Hb) as [(v & Hv & _)|(e & _ & He)]; congruence.
Qed.

Lemma evals_bind (c : comp) (g : value -> comp) (r : result ext) :
  evals (bind c g) r <->
  (exists v, evals c (Done v) /\ evals (g v) r) \/
  (exists e, r = Fault e /\ evals c (Fault e)).
Proof.
  split.
  - intros [n H]. destruct (run_bind_inv _ _ _ H) as [(v & Hc & Hg)|(e & -> & Hc)].
    + left. exists v. split; exists n; assumption.
    + right. exists e. split; [reflexivity|exists n; assumption].
  - intros [(v & [n Hc] & [m Hg])|(e & -> & [n Hc])].
    + exists (n + m)%nat. eapply run_bind_done; eassumption.
    + exists n. apply run_bind_fault. assumption.
Qed.

Lemma evals_call (f : value) (args : list value) (k : value -> comp)
  (r : result ext) :
  evals (Call f args k) r <-> evals (bind (apply f args) k) r.
Proof.
  rewrite evals_bind. split.
  - intros [n H]. destruct n as [|n]; simpl in H; [discriminate|].
    destruct (run n (apply f args)) as [[w|e]|] eqn:Hf; try discriminate.
    + left. exists w. split; exists n; assumption.
    + right. exists e. split; [congruence|exists n; assumption].
  - intros [(v & [n Hc] & [m Hg])|(e & -> & [n Hc])].
    + exists (S (Nat.max n m)). simpl.
      rewrite (run_mono _ Hc (m := Nat.max n m)) by lia.
      apply (run_mono _ Hg). lia.
    + exists (S n). simpl. rewrite Hc. reflexivity.
Qed.

(** *** The outcome equivalence and its laws *)

Lemma beh_refl (c : comp) : behaves_as c c.
Proof. intro r. reflexivity. Qed.

Lemma beh_sym (c1 c2 : comp) : behaves_as c1 c2 -> behaves_as c2 c1.
Proof. intros H r. symmetry. apply H. Qed.

Lemma beh_trans (c1 c2 c3 : comp) :
  behaves_as c1 c2 -> behaves_as c2 c3 -> behaves_as c1 c3.
Proof. intros H12 H23 r. rewrite (H12 r). apply H23. Qed.

Lemma beh_bind (c1 c2 : comp) (g1 g2 : value -> comp) :
  behaves_as c1 c2 -> (forall v, behaves_as (g1 v) (g2 v)) ->
  behaves_as (bind c1 g1) (bind c2 g2).
Proof.
  intros Hc Hg r. rewrite !evals_bind. split.
  - intros [(v & H1 & H2)|(e & -> & H1)].
    + left. exists v. split; [apply Hc|apply Hg]; assumption.
    + right. exists e. split; [reflexivity|apply Hc; assumption].
  - intros [(v & H1 & H2)|(e & -> & H1)].
    + left. exists v. split; [apply Hc|apply Hg]; assumption.
    + right. exists e. split; [reflexivity|apply Hc; assumption].
Qed.

Lemma beh_call (f : value) (args : list value) (k : value -> comp) :
  behaves_as (Call f args k) (bind (apply f args) k).
Proof. intro r. apply evals_call. Qed.

Lemma beh_bind_ret (c : comp) : behaves_as (bind c (@Ret ext)) c.
Proof.
  intro r. rewrite evals_bind. split.
  - intros [(v & H1 & H2)|(e & -> & H1)]; [|assumption].
    rewrite (evals_det H2 (evals_ret v)). assumption.
  - intros H. destruct r as [v|e].
    + left. exists v. split; [assumption|apply evals_ret].
    + right. exists e. split; [reflexivity|assumption].
Qed.

Lemma beh_bind_assoc (c : comp) (g h : value -> comp) :
  behaves_as (bind (bind c g) h) (bind c (fun x => bind (g x) h)).
Proof.
  intro r. rewrite !evals_bind. split.
  - intros [(v & H1 & H2)|(e & -> & H1)].
    + apply evals_bind in H1.
      destruct H1 as [(w & Hc & Hg)|(e & He & _)]; [|discriminate].
      left. exists w. split; [assumption|].
      apply evals_bind. left. exists v. split; assumption.
    + apply evals_bind in H1.
      destruct H1 as [(w & Hc & Hg)|(e' & He & Hc)].
      * left. exists w. split; [assumption|].
        apply evals_bind. right. exists e. split; [reflexivity|assumption].
      * right. exists e'. split; assumption.
  - intros [(w & Hc & Hgh)|(e & -> & Hc)].
    + apply evals_bind in Hgh.
      destruct Hgh as [(v & Hg & Hh)|(e & -> & Hg)].
      * left. exists v. split; [|assumption].
        apply evals_bind. left. exists w. split; assumption.
      * right. exists e. split; [reflexivity|].
        apply evals_bind. left. exists w. split; assumption.
    + right. exists e. split; [reflexivity|].
      apply evals_bind. right. exists e. split; [reflexivity|assumption].
Qed.

(** A computation that evaluates to [v] can be replaced by [v]. *)
Lemma beh_bind_value (c : comp) (v : value) (g : value -> comp) :
  evals c (Done v) -> behaves_as (bind c g) (g v).
Proof.
  intros Hc r. rewrite evals_bind. split.
  - intros [(w & H1 & H2)|(e & -> & H1)].
    + injection (evals_det H1 Hc) as ->. assumption.
    + discriminate (evals_det H1 Hc).
  - intros H. left. exists v. split; assumption.
Qed.

Lemma beh_bind_fault (c : comp) (e : exn) (g : value -> comp) :
  evals c (Fault e) -> behaves_as (bind c g) (Raise e).
Proof.
  intros Hc r. rewrite evals_bind. split.
  - intros [(w & H1 & H2)|(e' & -> & H1)].
    + discriminate (evals_det H1 Hc).
    + injection (evals_det H1 Hc) as ->. apply evals_raise.
  - intros H. rewrite (evals_det H (evals_raise e)).
    right. exists e. split; [reflexivity|assumption].
Qed.

Lemma diverges_not_evals (c : comp) :
  diverges ext_body c <-> forall r, ~ evals c r.
Proof.
  split.
  - intros Hd r [n Hn]. rewrite Hd in Hn. discriminate.
  - intros H n. destruct (run n c) as [r|] eqn:Hr; [|reflexivity].
    exfalso. apply (H r). exists n. assumption.
Qed.

Lemma run_ret (n : nat) (v : value) : run n (Ret v) = Some (Done v).
Proof. destruct n; reflexivity. Qed.

Lemma run_raise (n : nat) (e : exn) : run n (Raise e) = Some (Fault e).
Proof. destruct n; reflexivity. Qed.

Lemma callees_ret (n : nat) (v : value) : callees ext_body n (Ret v) = [].
Proof. destruct n; reflexivity. Qed.

Lemma callees_raise (n : nat) (e : exn) : callees ext_body n (Raise e) = [].
Proof. destruct n; reflexivity. Qed.

Lemma evals_run (n : nat) (c : comp) (r : result ext) :
  run n c = Some r -> evals c r.
Proof. intros H. exists n. assumption. Qed.

Lemma evals_beh (c1 c2 : comp) (r : result ext) :
  behaves_as c1 c2 -> evals c2 r -> evals c1 r.
Proof. intros H. apply H. Qed.

Lemma beh_run_done (n : nat) (c : comp) (v : value) :
  run n c = Some (Done v) -> behaves_as c (Ret v).
Proof.
  intros H r. split; intros E.
  - rewrite (evals_det E (evals_run n _ H)). apply evals_ret.
  - rewrite (evals_det E (evals_ret v)). exists n. assumption.
Qed.

Lemma beh_run_fault (n : nat) (c : comp) (e : exn) :
  run n c = Some (Fault e) -> behaves_as c (Raise e).
Proof.
  intros H r. split; intros E.
  - rewrite (evals_det E (evals_run n _ H)). apply evals_raise.
  - rewrite (evals_det E (evals_raise e)). exists n. assumption.
Qed.

(** An expression in callee position may be replaced by its value. *)
Lemma beh_app_done (n : nat) (e : comp) (f x : value) :
  run n e = Some (Done f) -> behaves_as (e $ x) (call f [x]).
Proof.
  intros H. unfold app.
  apply beh_bind_value with (g := fun f0 => call f0 [x]).
  exists n. assumption.
Qed.

Lemma beh_Call (f f' : value) (args args' : list value)
  (k k' : value -> comp) :
  behaves_as (call f args) (call f' args') ->
  (forall v, behaves_as (k v) (k' v)) ->
  behaves_as (Call f args k) (Call f' args' k').
Proof.
  intros Hf Hk. exact (beh_bind k k' Hf Hk).
Qed.

(** A call behaves as the body of the callee. *)
Lemma beh_call_body (f : value) (args : list value) :
  behaves_as (call f args) (apply f args).
Proof.
  eapply beh_trans; [apply beh_call|apply beh_bind_ret].
Qed.

(** ** Pairs *)

(** C6: for all values [a] and [b], [LEFT(PAIR(a)(b))] is [a] and
    [RIGHT(PAIR(a)(b))] is [b], the very values that went in. *)
Theorem pair_projections (a b : value) :
  run 8 (app_to LEFT (Ret PAIR $ a $ b)) = Some (Done a) /\
  run 8 (app_to RIGHT (Ret PAIR $ a $ b)) = Some (Done b).
Proof. split; reflexivity. Qed.

(** ** Lists *)

Lemma CONS_builds_encode_list (h : value) (xs : list value) :
  run 2 (Ret CONS $ h $ encode_list xs) = Some (Done (encode_list (h :: xs))).
Proof. reflexivity. Qed.

(** C7: [NILP(NIL)] is [TRUE] and takes the true branch; for a value
    [h] and a list [t], [NILP(CONS(h)(t))] is [FALSE] and takes the
    false branch, [HEAD(CONS(h)(t))] is [h] and [TAIL(CONS(h)(t))] is
    [t]. *)
Theorem list_case_analysis (h : value) (xs : list value) :
  run 8 (call NILP [NIL]) = Some (Done TRUE) /\
  (forall on_true on_false,
      behaves_as (call NILP [NIL] $ on_true $ on_false) (call on_true [])) /\
  run 8 (app_to NILP (Ret CONS $ h $ encode_list xs)) = Some (Done FALSE) /\
  (forall on_true on_false,
      behaves_as (app_to NILP (Ret CONS $ h $ encode_list xs)
                    $ on_true $ on_false)
                 (call on_false [])) /\
  run 8 (app_to HEAD (Ret CONS $ h $ encode_list xs)) = Some (Done h) /\
  run 8 (app_to TAIL (Ret CONS $ h $ encode_list xs))
    = Some (Done (encode_list xs)).
Proof.
  repeat apply conj; try reflexivity; intros on_true on_false.
  - eapply beh_trans;
      [apply beh_app_done with (n := 8%nat); reflexivity|].
    exact (beh_call_body (VClo TRUE_false_val [on_true]) [on_false]).
  - eapply beh_trans;
      [apply beh_app_done with (n := 8%nat); reflexivity|].
    exact (beh_call_body (VClo FALSE_false_value []) [on_false]).
Qed.

(** C10: [CONS] and the observers only store and hand back [h] and
    [t].  For arbitrary values [h] and [t] (a list or not, callable or
    not) the equations of the [CONS] case hold, and the callees of each
    evaluation are closures of the program: [h] and [t] are captured and
    passed along, never called. *)
Theorem cons_observers_parametric (h t : value) :
  (run 2 (Ret CONS $ h $ t) = Some (Done (VClo CONS_onnil [h; t])) /\
   callees ext_body 2 (Ret CONS $ h $ t) = [CONS; VClo CONS_tl [h]]) /\
  (run 8 (app_to NILP (Ret CONS $ h $ t)) = Some (Done FALSE) /\
   callees ext_body 8 (app_to NILP (Ret CONS $ h $ t)) =
     [CONS; VClo CONS_tl [h]; NILP; VClo CONS_onnil [h; t];
      VClo CONS_onlist [h; t]; fn NILP_hd; VClo NILP_tl []]) /\
  (run 8 (app_to HEAD (Ret CONS $ h $ t)) = Some (Done h) /\
   callees ext_body 8 (app_to HEAD (Ret CONS $ h $ t)) =
     [CONS; VClo CONS_tl [h]; HEAD; VClo CONS_onnil [h; t];
      VClo CONS_onlist [h; t]; fn HEAD_hd; VClo HEAD_tl [h]]) /\
  (run 8 (app_to TAIL (Ret CONS $ h $ t)) = Some (Done t) /\
   callees ext_body 8 (app_to TAIL (Ret CONS $ h $ t)) =
     [CONS; VClo CONS_tl [h]; TAIL; VClo CONS_onnil [h; t];
      VClo CONS_onlist [h; t]; fn TAIL_hd; VClo TAIL_tl []]).
Proof. repeat apply conj; reflexivity. Qed.

(** C2, as the code has it: [HEAD(NIL)] and [TAIL(NIL)] return no
    value.  [NIL] calls its empty-case handler with no argument; the
    handler is [VOID], which is [ID] and takes one, so the call is the
    host's argument-count [TypeError].  The failure that says a void
    value was invoked is raised by [_VOID], which neither observer
    uses. *)
Theorem HEAD_TAIL_of_NIL_fault :
  (VOID : value) = ID /\
  run 8 (call HEAD [NIL]) = Some (Fault TypeError_arguments) /\
  run 8 (call TAIL [NIL]) = Some (Fault TypeError_arguments) /\
  callees ext_body 8 (call HEAD [NIL])
    = [HEAD; NIL; VClo NIL_onlist [VOID]; VOID] /\
  callees ext_body 8 (call TAIL [NIL])
    = [TAIL; NIL; VClo NIL_onlist [VOID]; VOID] /\
  (forall n, run (4 + n) (call HEAD [NIL]) = Some (Fault TypeError_arguments)) /\
  (forall n, run (4 + n) (call TAIL [NIL]) = Some (Fault TypeError_arguments)) /\
  (forall x, run 1 (call _VOID [x])
             = Some (Fault (Exception "Cannot invoke VOID!"))).
Proof.
  repeat apply conj; try reflexivity; intros n; cbn;
    rewrite !run_raise; reflexivity.
Qed.

(** ** Booleans *)

(** C8: [IF(TRUE)(t)(e)] has the outcome of calling [t], and
    [IF(FALSE)(t)(e)] that of calling [e], whatever the other thunk is;
    the calls made are those of the program's own closures, then the
    selected thunk, then whatever that thunk calls. *)
Theorem IF_selects_lazily (t e : value) :
  behaves_as (Ret IF_ $ TRUE $ t $ e) (call t []) /\
  behaves_as (Ret IF_ $ FALSE $ t $ e) (call e []) /\
  (forall n,
      callees ext_body (6 + n) (Ret IF_ $ TRUE $ t $ e) =
      [IF_; VClo IF_true_value [TRUE]; VClo IF_false_value [TRUE; t];
       TRUE; VClo TRUE_false_val [t]; t] ++ callees ext_body n (apply t [])) /\
  (forall n,
      callees ext_body (6 + n) (Ret IF_ $ FALSE $ t $ e) =
      [IF_; VClo IF_true_value [FALSE]; VClo IF_false_value [FALSE; t];
       FALSE; VClo FALSE_false_value []; e] ++ callees ext_body n (apply e [])).
Proof.
  repeat apply conj.
  - eapply beh_trans;
      [apply beh_app_done with (n := 2%nat); reflexivity|].
    eapply beh_trans; [apply beh_call_body|]. cbn.
    eapply beh_trans; [apply beh_call|]. cbn.
    eapply beh_trans; [apply beh_call|]. cbn.
    apply beh_refl.
  - eapply beh_trans;
      [apply beh_app_done with (n := 2%nat); reflexivity|].
    eapply beh_trans; [apply beh_call_body|]. cbn.
    eapply beh_trans; [apply beh_call|]. cbn.
    eapply beh_trans; [apply beh_call|]. cbn.
    apply beh_refl.
  - intros n. cbn.
    destruct (run n (apply t [])) as [[r|x]|];
      rewrite ?run_ret, ?callees_ret, ?app_nil_r; reflexivity.
  - intros n. cbn.
    destruct (run n (apply e [])) as [[r|x]|];
      rewrite ?run_ret, ?callees_ret, ?app_nil_r; reflexivity.
Qed.

(** ** Numerals *)

(** C5: the numerals written with [compose] and the ones made by
    [numeral] decode alike: [natify] gives 1, 2, 3 for [ONE], [TWO],
    [THREE] and 4, 8 for [FOUR], [EIGHT], which are [numeral(4)] and
    [numeral(8)]; on 1, 2 and 3 both constructions decode to the same
    number. *)
Theorem numerals_decode :
  run 32 (call natify [ONE]) = Some (Done (VInt 1)) /\
  run 32 (call natify [TWO]) = Some (Done (VInt 2)) /\
  run 32 (call natify [THREE]) = Some (Done (VInt 3)) /\
  run 1 FOUR_init = Some (Done FOUR) /\
  run 1 EIGHT_init = Some (Done EIGHT) /\
  run 32 (call natify [FOUR]) = Some (Done (VInt 4)) /\
  run 32 (call natify [EIGHT]) = Some (Done (VInt 8)) /\
  run 32 (app_to natify (call numeral [VInt 1])) = run 32 (call natify [ONE]) /\
  run 32 (app_to natify (call numeral [VInt 2])) = run 32 (call natify [TWO]) /\
  run 32 (app_to natify (call numeral [VInt 3])) = run 32 (call natify [THREE]).
Proof. repeat apply conj; reflexivity. Qed.

Lemma run_none_anti (n m : nat) (c : comp) :
  run m c = None -> (n <= m)%nat -> run n c = None.
Proof.
  intros Hm Hle. destruct (run n c) as [r|] eqn:Hn; [|reflexivity].
  rewrite (run_mono _ Hn Hle) in Hm. discriminate.
Qed.

Lemma evals_call_value (f : value) (args : list value) (k : value -> comp)
  (v : value) (r : result ext) :
  evals (call f args) (Done v) -> evals (k v) r -> evals (Call f args k) r.
Proof.
  intros Hf Hk. apply evals_call. apply evals_bind. left. exists v.
  split; [|assumption]. apply (beh_call_body f args). assumption.
Qed.

Ltac beh_step := eapply beh_trans; [apply beh_call|]; cbn.
Ltac ev_step := apply evals_call; cbn.

Lemma numeral_z_body (n : Z) (f z : value) :
  n <> 0 ->
  body numeral_z [VInt n; f] [z] =
  (a <- call numeral [VInt (n - 1)] ;;
   b <- call a [f] ;;
   r <- call b [z] ;;
   call f [r]).
Proof.
  intros Hn. cbn. destruct (n =? 0) eqn:E; [lia|reflexivity].
Qed.

(** [numeral(n)(f)(z)] is the innermost closure applied to [z]. *)
Lemma numeral_unfold (n f z : value) :
  behaves_as (Ret numeral $ n $ f $ z) (call (VClo numeral_z [n; f]) [z]).
Proof. apply beh_app_done with (n := 2%nat). reflexivity. Qed.

Lemma numeral_z_step (n : Z) (f z : value) :
  n <> 0 ->
  behaves_as (call (VClo numeral_z [VInt n; f]) [z])
             (r <- call (VClo numeral_z [VInt (n - 1); f]) [z] ;; call f [r]).
Proof.
  intros Hn. eapply beh_trans; [apply beh_call_body|].
  change (apply (VClo numeral_z [VInt n; f]) [z])
    with (body numeral_z [VInt n; f] [z]).
  rewrite (numeral_z_body f z Hn). cbn.
  beh_step. beh_step. apply beh_refl.
Qed.

Lemma numeral_z_iter (k : nat) (f z : value) :
  behaves_as (call (VClo numeral_z [VInt (Z.of_nat k); f]) [z])
             (iter_call k f z).
Proof.
  induction k as [|k IH].
  - eapply beh_trans; [apply beh_call_body|]. apply beh_refl.
  - eapply beh_trans; [apply numeral_z_step; lia|].
    replace (Z.of_nat (S k) - 1) with (Z.of_nat k) by lia.
    cbn [iter_call]. apply beh_bind; [exact IH|intro; apply beh_refl].
Qed.

(** Iterating a function that adds [m]. *)
Lemma iter_call_adds (g : value) (m : Z) :
  (forall z, evals (call g [VInt z]) (Done (VInt (z + m)))) ->
  forall (k : nat) (z : Z),
    evals (iter_call k g (VInt z)) (Done (VInt (z + Z.of_nat k * m))).
Proof.
  intros Hg k z. induction k as [|k IH].
  - replace (z + Z.of_nat 0 * m) with z by lia. apply evals_ret.
  - cbn [iter_call]. apply evals_bind. left.
    exists (VInt (z + Z.of_nat k * m)). split; [exact IH|].
    replace (z + Z.of_nat (S k) * m) with (z + Z.of_nat k * m + m) by lia.
    apply Hg.
Qed.

Lemma INC_adds_one (z : Z) : evals (call INC [VInt z]) (Done (VInt (z + 1))).
Proof. exists 1%nat. reflexivity. Qed.

(** A numeral applied to a function that adds [m] adds [n * m]. *)
Lemma numeral_z_adds (n : Z) (g : value) (m : Z) :
  0 <= n ->
  (forall z, evals (call g [VInt z]) (Done (VInt (z + m)))) ->
  forall z, evals (call (VClo numeral_z [VInt n; g]) [VInt z])
                  (Done (VInt (z + n * m))).
Proof.
  intros Hn Hg z.
  rewrite <- (Z2Nat.id n Hn).
  apply (evals_beh (numeral_z_iter (Z.to_nat n) g (VInt z))).
  apply iter_call_adds. assumption.
Qed.

Lemma numeral_z_INC (n : Z) :
  0 <= n ->
  forall z, evals (call (VClo numeral_z [VInt n; INC]) [VInt z])
                  (Done (VInt (z + n))).
Proof.
  intros Hn z. replace (z + n) with (z + n * 1) by lia.
  apply numeral_z_adds; [assumption|apply INC_adds_one].
Qed.

(** C3: for every integer [n >= 0], [natify(numeral(n))] is [n];
    [numeral(n)(f)(z)] has the outcome of [f(f(...f(z)...))] with [n]
    applications, for any [f] and [z]; and [numeral(0)(f)(z)] is [z]. *)
Theorem natify_numeral_roundtrip :
  (forall n : Z, 0 <= n ->
     evals (app_to natify (call numeral [VInt n])) (Done (VInt n))) /\
  (forall (n : nat) (f z : value),
     behaves_as (Ret numeral $ VInt (Z.of_nat n) $ f $ z) (iter_call n f z)) /\
  (forall f z : value, run 3 (Ret numeral $ VInt 0 $ f $ z) = Some (Done z)).
Proof.
  repeat apply conj.
  - intros n Hn. unfold app_to. cbn.
    ev_step. ev_step. ev_step.
    eapply evals_call_value; [apply (numeral_z_INC Hn 0)|].
    apply evals_ret.
  - intros n f z.
    eapply beh_trans; [apply numeral_unfold|apply numeral_z_iter].
  - reflexivity.
Qed.

(** C4: for integers [n, m >= 0], decoding [SUCC(numeral(n))] gives
    [n + 1], decoding [SUM(numeral(n))(numeral(m))] gives [n + m], and
    decoding [MULT(numeral(n))(numeral(m))] gives [n * m]. *)
Theorem natify_homomorphism (n m : Z) :
  0 <= n -> 0 <= m ->
  evals (a <- call numeral [VInt n] ;;
         s <- call SUCC [a] ;;
         call natify [s])
        (Done (VInt (n + 1))) /\
  evals (a <- call numeral [VInt n] ;;
         s1 <- call SUM [a] ;;
         b <- call numeral [VInt m] ;;
         s <- call s1 [b] ;;
         call natify [s])
        (Done (VInt (n + m))) /\
  evals (a <- call numeral [VInt n] ;;
         s1 <- call MULT [a] ;;
         b <- call numeral [VInt m] ;;
         s <- call s1 [b] ;;
         call natify [s])
        (Done (VInt (n * m))).
Proof.
  intros Hn Hm. repeat apply conj; cbn.
  - do 6 ev_step.
    eapply evals_call_value; [apply (numeral_z_INC Hn 0)|].
    ev_step. apply evals_ret.
  - do 10 ev_step.
    eapply evals_call_value; [apply (numeral_z_INC Hm 0)|].
    eapply evals_call_value; [apply (numeral_z_INC Hn (0 + m))|].
    replace (0 + m + n) with (n + m) by lia. apply evals_ret.
  - do 9 ev_step.
    eapply evals_call_value.
    + apply numeral_z_adds with (m := m); [assumption|].
      intros z. apply (numeral_z_INC Hm).
    + replace (0 + n * m) with (n * m) by lia. apply evals_ret.
Qed.

Lemma numeral_z_negative (f : value) (fuel : nat) :
  forall (n : Z) (z : value),
    n < 0 -> run fuel (call (VClo numeral_z [VInt n; f]) [z]) = None.
Proof.
  induction fuel as [|k IH]; intros n z Hn; [reflexivity|].
  change (run (S k) (call (VClo numeral_z [VInt n; f]) [z]))
    with (match run k (body numeral_z [VInt n; f] [z]) with
          | Some (Done r) => run k (Ret r)
          | other => other
          end).
  rewrite numeral_z_body by lia.
  destruct k as [|k]; [reflexivity|].
  destruct k as [|k]; [reflexivity|].
  destruct k as [|k]; [reflexivity|].
  assert (E : run (S k) (call (VClo numeral_z [VInt (n - 1); f]) [z]) = None).
  { apply run_none_anti with (m := S (S (S k))); [apply IH; lia|lia]. }
  cbn. cbn in E.
  match type of E with
  | match ?X with _ => _ end = _ => destruct X as [[r|e]|]
  end.
  - rewrite run_ret in E. discriminate.
  - discriminate.
  - reflexivity.
Qed.

(** C9: [numeral(n)] and [numeral(n)(f)] return a closure in one call
    each, for any [n] and [f], without calling anything else; the
    recursion starts when the seed is supplied, and for negative [n]
    that last application never comes back. *)
Theorem numeral_construction_terminates :
  (forall n : value,
     run 1 (call numeral [n]) = Some (Done (VClo numeral_f [n])) /\
     callees ext_body 1 (call numeral [n]) = [numeral]) /\
  (forall n f : value,
     run 2 (Ret numeral $ n $ f) = Some (Done (VClo numeral_z [n; f])) /\
     callees ext_body 2 (Ret numeral $ n $ f)
       = [numeral; VClo numeral_f [n]]) /\
  (forall (n : Z) (f z : value),
     n < 0 -> diverges ext_body (Ret numeral $ VInt n $ f $ z)).
Proof.
  split; [|split].
  - intros n. split; reflexivity.
  - intros n f. split; reflexivity.
  - intros n f z Hn. apply diverges_not_evals. intros r Hr.
    apply (numeral_unfold (VInt n) f z) in Hr. destruct Hr as [k Hk].
    rewrite (numeral_z_negative f k z Hn) in Hk. discriminate.
Qed.

(** ** The fixed-point combinator *)

Lemma Y_init_value : run 1 Y_init = Some (Done Y).
Proof. reflexivity. Qed.

(** [Y(F)] is [F] applied to the wrapper of the operator. *)
Lemma Y_unfold (F : value) :
  behaves_as (call Y [F]) (call F [Y_self1 F]).
Proof. apply (beh_call_body Y [F]). Qed.

(** Either wrapper, applied to [x], applies [F] to the wrapper of the
    operand and the result to [x]. *)
Lemma Y_self1_unfold (F x : value) :
  behaves_as (call (Y_self1 F) [x]) (call F [Y_self2 F] $ x).
Proof.
  eapply beh_trans; [apply beh_call_body|]. cbn.
  beh_step. beh_step. apply beh_refl.
Qed.

Lemma Y_self2_unfold (F x : value) :
  behaves_as (call (Y_self2 F) [x]) (call F [Y_self2 F] $ x).
Proof.
  eapply beh_trans; [apply beh_call_body|]. cbn.
  beh_step. beh_step. apply beh_refl.
Qed.

Lemma Y_selves_app_equiv (F : value) :
  app_equiv ext_body (Y_self1 F) (Y_self2 F).
Proof.
  intros x. eapply beh_trans; [apply Y_self1_unfold|].
  apply beh_sym. apply Y_self2_unfold.
Qed.

(** *** Telling values apart by application *)

Lemma same_upto_refl (R : value -> value -> Prop) (c : comp) :
  (forall v, R v v) -> same_upto ext_body R c c.
Proof.
  intros HR. repeat split; try tauto.
  - intros v Hv. exists v. split; [assumption|apply HR].
  - intros v Hv. exists v. split; [assumption|apply HR].
Qed.

Lemma same_upto_sym (R R' : value -> value -> Prop) (c1 c2 : comp) :
  (forall v1 v2, R v1 v2 -> R' v2 v1) ->
  same_upto ext_body R c1 c2 -> same_upto ext_body R' c2 c1.
Proof.
  intros HR (Hf & H12 & H21). repeat split.
  - apply Hf.
  - apply Hf.
  - intros v2 Hv. destruct (H21 v2 Hv) as (v1 & H1 & Hr).
    exists v1. split; [assumption|apply HR; assumption].
  - intros v1 Hv. destruct (H12 v1 Hv) as (v2 & H2 & Hr).
    exists v2. split; [assumption|apply HR; assumption].
Qed.

Lemma same_upto_weaken (R R' : value -> value -> Prop) (c1 c2 : comp) :
  (forall v1 v2, R v1 v2 -> R' v1 v2) ->
  same_upto ext_body R c1 c2 -> same_upto ext_body R' c1 c2.
Proof.
  intros HR (Hf & H12 & H21). repeat split; try apply Hf.
  - intros v1 Hv. destruct (H12 v1 Hv) as (v2 & H2 & Hr).
    exists v2. split; [assumption|apply HR; assumption].
  - intros v2 Hv. destruct (H21 v2 Hv) as (v1 & H1 & Hr).
    exists v1. split; [assumption|apply HR; assumption].
Qed.

(** Computations with the same outcome may be exchanged. *)
Lemma same_upto_beh (R : value -> value -> Prop) (c1 c1' c2 c2' : comp) :
  behaves_as c1 c1' -> behaves_as c2 c2' ->
  same_upto ext_body R c1' c2' -> same_upto ext_body R c1 c2.
Proof.
  intros B1 B2 (Hf & H12 & H21). repeat split.
  - intros H. apply B2, Hf, B1. assumption.
  - intros H. apply B1, Hf, B2. assumption.
  - intros v1 Hv. apply B1 in Hv. destruct (H12 v1 Hv) as (v2 & H2 & Hr).
    exists v2. split; [apply B2; assumption|assumption].
  - intros v2 Hv. apply B2 in Hv. destruct (H21 v2 Hv) as (v1 & H1 & Hr).
    exists v1. split; [apply B1; assumption|assumption].
Qed.

Lemma same_upto_values (R : value -> value -> Prop) (c1 c2 : comp)
  (v1 v2 : value) :
  evals c1 (Done v1) -> evals c2 (Done v2) -> R v1 v2 ->
  same_upto ext_body R c1 c2.
Proof.
  intros H1 H2 Hr. repeat split.
  - intros H. discriminate (evals_det H H1).
  - intros H. discriminate (evals_det H H2).
  - intros u1 Hu. injection (evals_det Hu H1) as ->.
    exists v2. split; assumption.
  - intros u2 Hu. injection (evals_det Hu H2) as ->.
    exists v1. split; assumption.
Qed.

Lemma same_upto_bind (R R' : value -> value -> Prop) (c1 c2 : comp)
  (k1 k2 : value -> comp) :
  same_upto ext_body R c1 c2 ->
  (forall v1 v2, R v1 v2 -> same_upto ext_body R' (k1 v1) (k2 v2)) ->
  same_upto ext_body R' (bind c1 k1) (bind c2 k2).
Proof.
  intros (Hf & H12 & H21) Hk. repeat split.
  - intros H. apply evals_bind in H. apply evals_bind.
    destruct H as [(v1 & Hv & Hr)|(e' & E & He)].
    + destruct (H12 v1 Hv) as (v2 & Hv2 & HR).
      left. exists v2. split; [assumption|].
      apply (proj1 (Hk v1 v2 HR)). assumption.
    + right. exists e'. split; [assumption|apply Hf; assumption].
  - intros H. apply evals_bind in H. apply evals_bind.
    destruct H as [(v2 & Hv & Hr)|(e' & E & He)].
    + destruct (H21 v2 Hv) as (v1 & Hv1 & HR).
      left. exists v1. split; [assumption|].
      apply (proj1 (Hk v1 v2 HR)). assumption.
    + right. exists e'. split; [assumption|apply Hf; assumption].
  - intros u1 H. apply evals_bind in H.
    destruct H as [(v1 & Hv & Hr)|(e' & E & _)]; [|discriminate].
    destruct (H12 v1 Hv) as (v2 & Hv2 & HR).
    destruct (proj1 (proj2 (Hk v1 v2 HR)) u1 Hr) as (u2 & Hu2 & HR').
    exists u2. split; [|assumption].
    apply evals_bind. left. exists v2. split; assumption.
  - intros u2 H. apply evals_bind in H.
    destruct H as [(v2 & Hv & Hr)|(e' & E & _)]; [|discriminate].
    destruct (H21 v2 Hv) as (v1 & Hv1 & HR).
    destruct (proj2 (proj2 (Hk v1 v2 HR)) u2 Hr) as (u1 & Hu1 & HR').
    exists u1. split; [|assumption].
    apply evals_bind. left. exists v1. split; assumption.
Qed.

(** Alike at every depth is alike up to [indistinguishable]. *)
Lemma same_upto_every_depth (c1 c2 : comp) :
  (forall d, same_upto ext_body (alike ext_body d) c1 c2) ->
  same_upto ext_body (indistinguishable ext_body) c1 c2.
Proof.
  intros H. repeat split; try apply (H O).
  - intros v1 Hv. destruct (proj1 (proj2 (H O)) v1 Hv) as (v2 & Hv2 & _).
    exists v2. split; [assumption|]. intros d.
    destruct (proj1 (proj2 (H d)) v1 Hv) as (u2 & Hu2 & Hr).
    injection (evals_det Hu2 Hv2) as ->. assumption.
  - intros v2 Hv. destruct (proj2 (proj2 (H O)) v2 Hv) as (v1 & Hv1 & _).
    exists v1. split; [assumption|]. intros d.
    destruct (proj2 (proj2 (H d)) v2 Hv) as (u1 & Hu1 & Hr).
    injection (evals_det Hu1 Hv1) as ->. assumption.
Qed.

Lemma alike_refl (d : nat) : forall v, alike ext_body d v v.
Proof.
  induction d as [|d IH]; intros v; [exact I|].
  destruct (callable v) eqn:E.
  - right. split; [exact E|]. split; [exact E|].
    intros x. apply same_upto_refl. exact IH.
  - left. split; [exact E|reflexivity].
Qed.

Lemma alike_sym (d : nat) :
  forall v1 v2, alike ext_body d v1 v2 -> alike ext_body d v2 v1.
Proof.
  induction d as [|d IH]; intros v1 v2 H; [exact I|].
  destruct H as [(Hc & ->)|(Hc1 & Hc2 & Hx)].
  - left. split; [assumption|reflexivity].
  - right. split; [assumption|]. split; [assumption|].
    intros x. apply same_upto_sym with (R := alike ext_body d);
      [exact IH|apply Hx].
Qed.

Lemma indistinguishable_refl (v : value) : indistinguishable ext_body v v.
Proof. intros d. apply alike_refl. Qed.

Lemma indistinguishable_sym (v1 v2 : value) :
  indistinguishable ext_body v1 v2 -> indistinguishable ext_body v2 v1.
Proof. intros H d. apply alike_sym. apply H. Qed.

(** Indistinguishable values applied to the same argument. *)
Lemma indistinguishable_call (v1 v2 x : value) :
  indistinguishable ext_body v1 v2 ->
  same_upto ext_body (indistinguishable ext_body) (call v1 [x]) (call v2 [x]).
Proof.
  intros H. destruct (H 1%nat) as [(_ & ->)|(Hc1 & _ & _)].
  - apply same_upto_refl. apply indistinguishable_refl.
  - apply same_upto_every_depth. intros d.
    destruct (H (S d)) as [(Hc & _)|(_ & _ & Hx)]; [congruence|apply Hx].
Qed.

(** Callables with the same outcome on every argument. *)
Lemma indistinguishable_of_app_equiv (v1 v2 : value) :
  callable v1 = true -> callable v2 = true ->
  app_equiv ext_body v1 v2 -> indistinguishable ext_body v1 v2.
Proof.
  intros H1 H2 H d. destruct d as [|d]; [exact I|].
  right. split; [assumption|]. split; [assumption|].
  intros x. apply (same_upto_beh (H x) (beh_refl (call v2 [x]))).
  apply same_upto_refl. apply alike_refl.
Qed.

(** For a generator that uses its self-argument by application only,
    the function that [Y] returns is a fixed point. *)
Lemma Y_fixed_point_of_applicative (F f : value) :
  uses_self_by_application ext_body F ->
  evals (call Y [F]) (Done f) ->
  callable f = true ->
  forall x, same_upto ext_body (indistinguishable ext_body)
                      (call f [x]) (call F [f] $ x).
Proof.
  intros HF Hf Hc.
  assert (Hf1 : evals (call F [Y_self1 F]) (Done f))
    by (apply (Y_unfold F); assumption).
  assert (W : indistinguishable ext_body (Y_self1 F) (Y_self2 F))
    by (apply indistinguishable_of_app_equiv;
        [reflexivity|reflexivity|apply Y_selves_app_equiv]).
  destruct (proj1 (proj2 (HF _ _ W)) f Hf1) as (f2 & Hf2 & Hff2).
  assert (E1 : indistinguishable ext_body f (Y_self1 F)).
  { intros d. destruct d as [|d]; [exact I|].
    right. split; [assumption|]. split; [reflexivity|]. intros x.
    apply (same_upto_weaken (R := indistinguishable ext_body));
      [intros v1 v2 Hv; apply Hv|].
    apply same_upto_beh with (c1' := call f [x]) (c2' := call f2 [x]).
    - apply beh_refl.
    - eapply beh_trans; [apply Y_self1_unfold|].
      apply beh_bind_value with (g := fun g => call g [x]). assumption.
    - apply indistinguishable_call. assumption. }
  destruct (proj2 (proj2 (HF _ _ E1)) f Hf1) as (f' & Hf' & Hf'f).
  intros x.
  apply same_upto_beh with (c1' := call f [x]) (c2' := call f' [x]).
  - apply beh_refl.
  - apply beh_bind_value with (g := fun g => call g [x]). assumption.
  - apply indistinguishable_call. apply indistinguishable_sym. assumption.
Qed.

Lemma py_mul_alike (d : nat) (n r1 r2 : value) :
  indistinguishable ext_body r1 r2 ->
  same_upto ext_body (alike ext_body d) (py_mul n r1) (py_mul n r2).
Proof.
  intros H. destruct (H 1%nat) as [(_ & ->)|(Hc1 & Hc2 & _)].
  - apply same_upto_refl. apply alike_refl.
  - destruct r1; try discriminate; destruct r2; try discriminate;
      destruct n; apply same_upto_refl; apply alike_refl.
Qed.

(** The generator of the demonstration uses its self-argument by
    application only. *)
Lemma fact_gen_uses_self_by_application :
  uses_self_by_application ext_body fact_gen.
Proof.
  intros s1 s2 Hs.
  apply same_upto_values
    with (v1 := VClo fact_n [s1]) (v2 := VClo fact_n [s2]);
    try (exists 1%nat; reflexivity).
  intros d. destruct d as [|d]; [exact I|].
  right. split; [reflexivity|]. split; [reflexivity|]. intros x.
  apply same_upto_beh
    with (c1' := apply (VClo fact_n [s1]) [x])
         (c2' := apply (VClo fact_n [s2]) [x]);
    try apply beh_call_body.
  destruct x as [k| | | |]; try (apply same_upto_refl; apply alike_refl).
  cbn. destruct (k <=? 0); [apply same_upto_refl; apply alike_refl|].
  apply (same_upto_bind (R := indistinguishable ext_body)
                        (c1 := call s1 [VInt (k - 1)])
                        (c2 := call s2 [VInt (k - 1)])
                        (fun r => py_mul (VInt k) r)
                        (fun r => py_mul (VInt k) r)).
  - apply indistinguishable_call. assumption.
  - intros r1 r2 Hr. apply py_mul_alike. assumption.
Qed.







(** ** Numerals, however they are built *)

Lemma beh_Call_value (f : value) (args : list value) (k : value -> comp)
  (v : value) :
  evals (call f args) (Done v) -> behaves_as (Call f args k) (k v).
Proof. intros H. exact (beh_bind_value k H). Qed.

Lemma beh_call_then (g : value) (args : list value) (c : comp)
  (k : value -> comp) :
  behaves_as (call g args) c -> behaves_as (Call g args k) (bind c k).
Proof. intros H. exact (beh_bind k k H (fun v => beh_refl (k v))). Qed.

Lemma iter_call_plus (k j : nat) (f z : value) :
  behaves_as (r <- iter_call j f z ;; iter_call k f r)
             (iter_call (k + j) f z).
Proof.
  induction k as [|k IH].
  - exact (beh_bind_ret (iter_call j f z)).
  - cbn [Nat.add iter_call].
    eapply beh_trans;
      [apply beh_sym;
       exact (beh_bind_assoc (iter_call j f z) (fun r => iter_call k f r)
                             (fun r => call f [r]))|].
    apply beh_bind; [exact IH|intro; apply beh_refl].
Qed.

Lemma iter_call_mult (k j : nat) (g f z : value) :
  (forall x, behaves_as (call g [x]) (iter_call j f x)) ->
  behaves_as (iter_call k g z) (iter_call (k * j) f z).
Proof.
  intros Hg. induction k as [|k IH].
  - apply beh_refl.
  - cbn [Nat.mul iter_call].
    eapply beh_trans; [|apply iter_call_plus].
    apply beh_bind; [exact IH|exact Hg].
Qed.

Lemma is_numeral_app (k : nat) (v : value) :
  is_numeral ext_body k v ->
  forall f z, behaves_as (Ret v $ f $ z) (iter_call k f z).
Proof.
  intros Hv f z. destruct (Hv f) as (g & Hg & Hz).
  eapply beh_trans; [|apply Hz].
  exact (beh_bind_value (fun g0 => call g0 [z]) Hg).
Qed.

Lemma numeral_is_numeral (k : nat) :
  is_numeral ext_body k (VClo numeral_f [VInt (Z.of_nat k)]).
Proof.
  intros f. exists (VClo numeral_z [VInt (Z.of_nat k); f]). split.
  - exists 1%nat. reflexivity.
  - intros z. apply numeral_z_iter.
Qed.

Lemma ONE_is_numeral : is_numeral ext_body 1 ONE.
Proof.
  intros f. exists f. split.
  - exists 1%nat. reflexivity.
  - intros z. apply beh_refl.
Qed.

Lemma TWO_is_numeral : is_numeral ext_body 2 TWO.
Proof.
  intros f. exists (VClo compose_x [f; f]). split.
  - exists 2%nat. reflexivity.
  - intros z. eapply beh_trans; [apply beh_call_body|]. apply beh_refl.
Qed.

Lemma THREE_is_numeral : is_numeral ext_body 3 THREE.
Proof.
  intros f. exists (VClo compose_x [f; VClo compose_x [f; f]]). split.
  - exists 3%nat. reflexivity.
  - intros z. eapply beh_trans; [apply beh_call_body|]. cbn.
    apply (beh_call_then (c := iter_call 2 f z)).
    eapply beh_trans; [apply beh_call_body|]. apply beh_refl.
Qed.

(** X2: applied to any [f] and [z], [ONE], [TWO] and [THREE] have the
    outcome of one, two and three applications of [f] to [z], and so
    agree with [numeral(1)], [numeral(2)] and [numeral(3)] on every
    function and seed, not only under [natify]. *)
Theorem hand_built_numerals_iterate (f z : value) :
  (behaves_as (Ret ONE $ f $ z) (iter_call 1 f z) /\
   behaves_as (Ret TWO $ f $ z) (iter_call 2 f z) /\
   behaves_as (Ret THREE $ f $ z) (iter_call 3 f z)) /\
  (behaves_as (Ret ONE $ f $ z) (Ret numeral $ VInt 1 $ f $ z) /\
   behaves_as (Ret TWO $ f $ z) (Ret numeral $ VInt 2 $ f $ z) /\
   behaves_as (Ret THREE $ f $ z) (Ret numeral $ VInt 3 $ f $ z)).
Proof.
  assert (H1 := is_numeral_app ONE_is_numeral f z).
  assert (H2 := is_numeral_app TWO_is_numeral f z).
  assert (H3 := is_numeral_app THREE_is_numeral f z).
  assert (N : forall k : nat,
             behaves_as (Ret numeral $ VInt (Z.of_nat k) $ f $ z)
                        (iter_call k f z)).
  { intros k. eapply beh_trans; [apply numeral_unfold|apply numeral_z_iter]. }
  repeat apply conj; try assumption.
  - eapply beh_trans; [exact H1|apply beh_sym; exact (N 1%nat)].
  - eapply beh_trans; [exact H2|apply beh_sym; exact (N 2%nat)].
  - eapply beh_trans; [exact H3|apply beh_sym; exact (N 3%nat)].
Qed.

(** X3: [SUCC] maps a numeral for [k] to a numeral for [k + 1]:
    [SUCC(v)(f)] returns a function that applies [f] once more than
    [v(f)] does, for every [f]. *)
Theorem SUCC_is_successor (k : nat) (v : value) :
  is_numeral ext_body k v ->
  exists s, evals (call SUCC [v]) (Done s) /\ is_numeral ext_body (S k) s.
Proof.
  intros Hv. exists (VClo SUCC_f [v]). split; [exists 1%nat; reflexivity|].
  intros f. exists (VClo SUCC_z [v; f]).
  split; [exists 1%nat; reflexivity|]. intros z.
  destruct (Hv f) as (g & Hg & Hz).
  eapply beh_trans; [apply beh_call_body|]. cbn.
  eapply beh_trans; [apply (beh_Call_value _ Hg)|]. cbn.
  apply (beh_call_then (c := iter_call k f z)). apply Hz.
Qed.

(** X4: [SUM] adds: for numerals [v] for [k] and [w] for [j],
    [SUM(v)(w)] is a numeral for [k + j], for every function it is
    applied to. *)
Theorem SUM_adds (k j : nat) (v w : value) :
  is_numeral ext_body k v -> is_numeral ext_body j w ->
  exists s, evals (Ret SUM $ v $ w) (Done s) /\
            is_numeral ext_body (k + j) s.
Proof.
  intros Hv Hw. exists (VClo SUM_f [v; w]).
  split; [exists 2%nat; reflexivity|].
  intros f. destruct (Hv f) as (gv & Hgv & Hzv).
  destruct (Hw f) as (gw & Hgw & Hzw).
  exists (VClo compose_x [gv; gw]). split.
  - apply (beh_call_body (VClo SUM_f [v; w]) [f]). cbn.
    eapply evals_call_value; [exact Hgv|].
    eapply evals_call_value; [exact Hgw|].
    exists 1%nat. reflexivity.
  - intros z. eapply beh_trans; [apply beh_call_body|]. cbn.
    eapply beh_trans; [apply (beh_call_then (c := iter_call j f z)); apply Hzw|].
    eapply beh_trans; [|apply iter_call_plus].
    apply beh_bind; [apply beh_refl|exact Hzv].
Qed.

(** X5: [MULT] multiplies: for numerals [v] for [k] and [w] for [j],
    [MULT(v)(w)] is a numeral for [k * j], for every function it is
    applied to. *)
Theorem MULT_multiplies (k j : nat) (v w : value) :
  is_numeral ext_body k v -> is_numeral ext_body j w ->
  exists s, evals (Ret MULT $ v $ w) (Done s) /\
            is_numeral ext_body (k * j) s.
Proof.
  intros Hv Hw. exists (VClo compose_x [v; w]).
  split; [exists 3%nat; reflexivity|].
  intros f. destruct (Hw f) as (gw & Hgw & Hzw).
  destruct (Hv gw) as (gv & Hgv & Hzv).
  exists gv. split.
  - apply (beh_call_body (VClo compose_x [v; w]) [f]). cbn.
    eapply evals_call_value; [exact Hgw|exact Hgv].
  - intros z. eapply beh_trans; [apply Hzv|].
    apply iter_call_mult. exact Hzw.
Qed.

(** X6: [natify] decodes every numeral, however it was built: a
    numeral for [k] decodes to the integer [k]. *)
Theorem natify_decodes_numerals (k : nat) (v : value) :
  is_numeral ext_body k v ->
  evals (call natify [v]) (Done (VInt (Z.of_nat k))).
Proof.
  intros Hv. destruct (Hv INC) as (g & Hg & Hz).
  apply (beh_call_body natify [v]). cbn.
  eapply evals_call_value; [exact Hg|].
  apply Hz. replace (Z.of_nat k) with (0 + Z.of_nat k * 1) by lia.
  apply iter_call_adds. apply INC_adds_one.
Qed.

(** ** Composition *)

(** X1: [compose] is associative and [ID] is its unit on both sides,
    as far as applying the composite goes; and it takes its two
    functions in one call, so a call with one is the host's
    argument-count [TypeError]. *)
Theorem compose_is_a_monoid (f g h x : value) :
  behaves_as (c1 <- call compose [f; g] ;;
              c <- call compose [c1; h] ;;
              call c [x])
             (c2 <- call compose [g; h] ;;
              c <- call compose [f; c2] ;;
              call c [x]) /\
  behaves_as (c <- call compose [ID; f] ;; call c [x]) (call f [x]) /\
  behaves_as (c <- call compose [f; ID] ;; call c [x]) (call f [x]) /\
  run 1 (call compose [f]) = Some (Fault TypeError_arguments).
Proof.
  assert (Hc : forall a b : value,
             evals (call compose [a; b]) (Done (VClo compose_x [a; b])))
    by (intros a b; exists 1%nat; reflexivity).
  repeat apply conj; try reflexivity.
  - eapply beh_trans; [apply (beh_Call_value _ (Hc f g))|]. cbn.
    eapply beh_trans; [apply (beh_Call_value _ (Hc _ h))|]. cbn.
    apply beh_sym.
    eapply beh_trans; [apply (beh_Call_value _ (Hc g h))|]. cbn.
    eapply beh_trans; [apply (beh_Call_value _ (Hc f _))|]. cbn.
    eapply beh_trans; [apply beh_call_body|]. cbn.
    eapply beh_trans; [apply beh_call|]. cbn.
    apply beh_sym.
    eapply beh_trans; [apply beh_call_body|]. cbn.
    apply beh_Call; [apply beh_refl|].
    intros r. apply beh_call_body.
  - eapply beh_trans; [apply (beh_Call_value _ (Hc ID f))|]. cbn.
    eapply beh_trans; [apply beh_call_body|]. cbn.
    eapply beh_trans; [|apply (beh_bind_ret (call f [x]))].
    apply beh_Call; [apply beh_refl|].
    intros r. apply beh_run_done with (n := 1%nat). reflexivity.
  - eapply beh_trans; [apply (beh_Call_value _ (Hc f ID))|]. cbn.
    eapply beh_trans; [apply beh_call_body|]. cbn.
    eapply beh_trans; [apply beh_call|]. cbn. apply beh_refl.
Qed.

(** ** Misuse *)

(** X7: [numeral] accepts anything and looks at it only when the seed
    arrives: for [n] that is no integer, [numeral(n)(f)(z)] is the
    operand [TypeError] of [n - 1], raised before [f] is ever called. *)
Theorem numeral_of_non_integer (n f z : value) :
  is_int n = false ->
  run 2 (Ret numeral $ n $ f) = Some (Done (VClo numeral_z [n; f])) /\
  run 3 (Ret numeral $ n $ f $ z) = Some (Fault TypeError_operand) /\
  callees ext_body 3 (Ret numeral $ n $ f $ z)
    = [numeral; VClo numeral_f [n]; VClo numeral_z [n; f]].
Proof.
  intros Hn. destruct n; try discriminate; repeat apply conj; reflexivity.
Qed.

(** X8: nothing checks that an argument is callable.  The observers
    fail on a non-callable at once; the constructors accept it, return
    their closure, and the fault comes when that closure is applied. *)
Theorem non_callable_faults_at_use (x a b : value) :
  callable x = false ->
  (run 8 (call natify [x]) = Some (Fault TypeError_not_callable) /\
   run 8 (call LEFT [x]) = Some (Fault TypeError_not_callable) /\
   run 8 (call RIGHT [x]) = Some (Fault TypeError_not_callable) /\
   run 8 (call NILP [x]) = Some (Fault TypeError_not_callable) /\
   run 8 (call HEAD [x]) = Some (Fault TypeError_not_callable) /\
   run 8 (call TAIL [x]) = Some (Fault TypeError_not_callable) /\
   run 8 (call U [x]) = Some (Fault TypeError_not_callable) /\
   run 8 (call Y [x]) = Some (Fault TypeError_not_callable)) /\
  (run 8 (Ret IF_ $ x $ a) = Some (Done (VClo IF_false_value [x; a])) /\
   run 8 (Ret IF_ $ x $ a $ b) = Some (Fault TypeError_not_callable)) /\
  (run 8 (Ret SUCC $ x $ a) = Some (Done (VClo SUCC_z [x; a])) /\
   run 8 (Ret SUCC $ x $ a $ b) = Some (Fault TypeError_not_callable)) /\
  (run 8 (Ret SUM $ x $ a) = Some (Done (VClo SUM_f [x; a])) /\
   run 8 (Ret SUM $ x $ a $ b) = Some (Fault TypeError_not_callable)) /\
  (run 8 (Ret MULT $ x $ a) = Some (Done (VClo compose_x [x; a])) /\
   run 8 (Ret PAIR $ a $ b) = Some (Done (VClo PAIR_f [a; b])) /\
   run 8 (Ret PAIR $ a $ b $ x) = Some (Fault TypeError_not_callable)).
Proof.
  intros Hx. destruct x; try discriminate; repeat apply conj; reflexivity.
Qed.

(** ** Lists as a whole *)

Lemma skipn_split (xs : list value) :
  forall (k : nat) (d : value),
    (k < List.length xs)%nat ->
    exists y rest,
      skipn k xs = y :: rest /\ skipn (S k) xs = rest /\ nth k xs d = y.
Proof.
  induction xs as [|x xs IH]; intros k d Hk; simpl in Hk; [lia|].
  destruct k as [|k].
  - exists x, xs. repeat split.
  - destruct (IH k d) as (y & rest & H1 & H2 & H3); [lia|].
    exists y, rest. repeat split; assumption.
Qed.

Lemma TAIL_of_cons (y : value) (rest : list value) :
  run 8 (call TAIL [encode_list (y :: rest)]) = Some (Done (encode_list rest)).
Proof. reflexivity. Qed.

Lemma TAIL_drops (xs : list value) (k : nat) :
  (k <= List.length xs)%nat ->
  evals (iter_call k TAIL (encode_list xs))
        (Done (encode_list (skipn k xs))).
Proof.
  induction k as [|k IH]; intros Hk.
  - apply evals_ret.
  - cbn [iter_call]. apply evals_bind. left.
    exists (encode_list (skipn k xs)). split; [apply IH; lia|].
    destruct (skipn_split xs (k := k) VNone) as (y & rest & H1 & H2 & _);
      [lia|].
    rewrite H1, H2. exists 8%nat. apply TAIL_of_cons.
Qed.

(** X9: walking a list.  For a list of [CONS] cells ending in [NIL]
    and [k] below its length, [k] applications of [TAIL] followed by
    [HEAD] give the element at index [k], and [NILP] there is
    [FALSE]. *)
Theorem list_indexing (xs : list value) (k : nat) (d : value) :
  (k < List.length xs)%nat ->
  evals (app_to HEAD (iter_call k TAIL (encode_list xs)))
        (Done (nth k xs d)) /\
  evals (app_to NILP (iter_call k TAIL (encode_list xs))) (Done FALSE).
Proof.
  intros Hk.
  destruct (skipn_split xs d Hk) as (y & rest & H1 & _ & H3).
  assert (Hd := TAIL_drops xs (k := k) ltac:(lia)). rewrite H1 in Hd.
  split; apply evals_bind; left; exists (encode_list (y :: rest));
    (split; [exact Hd|]); exists 8%nat; rewrite ?H3; reflexivity.
Qed.

Lemma TAIL_past_the_end (xs : list value) (m : nat) :
  evals (iter_call (S (List.length xs) + m) TAIL (encode_list xs))
        (Fault TypeError_arguments).
Proof.
  induction m as [|m IH].
  - rewrite Nat.add_0_r. cbn [iter_call]. apply evals_bind. left.
    exists NIL. split.
    + assert (H := TAIL_drops xs (k := List.length xs) (le_n _)).
      rewrite skipn_all in H. exact H.
    + exists 8%nat. reflexivity.
  - replace (S (List.length xs) + S m)%nat with (S (S (List.length xs) + m)) by lia.
    cbn [iter_call]. apply evals_bind. right.
    exists TypeError_arguments. split; [reflexivity|exact IH].
Qed.

(** X10: the end of a list.  After as many [TAIL]s as the list has
    elements the value is [NIL] and [NILP] is [TRUE]; [HEAD] there, and
    any further [TAIL], is the argument-count [TypeError] of calling
    [VOID] without an argument. *)
Theorem list_end (xs : list value) :
  evals (iter_call (List.length xs) TAIL (encode_list xs)) (Done NIL) /\
  evals (app_to NILP (iter_call (List.length xs) TAIL (encode_list xs)))
        (Done TRUE) /\
  evals (app_to HEAD (iter_call (List.length xs) TAIL (encode_list xs)))
        (Fault TypeError_arguments) /\
  (forall k, (List.length xs < k)%nat ->
     evals (iter_call k TAIL (encode_list xs)) (Fault TypeError_arguments)).
Proof.
  assert (H : evals (iter_call (List.length xs) TAIL (encode_list xs)) (Done NIL)).
  { assert (H := TAIL_drops xs (k := List.length xs) (le_n _)).
    rewrite skipn_all in H. exact H. }
  repeat apply conj.
  - exact H.
  - apply evals_bind. left. exists NIL. split; [exact H|].
    exists 8%nat. reflexivity.
  - apply evals_bind. left. exists NIL. split; [exact H|].
    exists 8%nat. reflexivity.
  - intros k Hk.
    replace k with (S (List.length xs) + (k - S (List.length xs)))%nat by lia.
    apply TAIL_past_the_end.
Qed.

Lemma IF_TRUE_beh (t e : value) :
  behaves_as (Ret IF_ $ TRUE $ t $ e) (call t []).
Proof.
  eapply beh_trans; [apply beh_app_done with (n := 2%nat); reflexivity|].
  eapply beh_trans; [apply beh_call_body|]. cbn.
  beh_step. beh_step. apply beh_refl.
Qed.

Lemma IF_FALSE_beh (t e : value) :
  behaves_as (Ret IF_ $ FALSE $ t $ e) (call e []).
Proof.
  eapply beh_trans; [apply beh_app_done with (n := 2%nat); reflexivity|].
  eapply beh_trans; [apply beh_call_body|]. cbn.
  beh_step. beh_step. apply beh_refl.
Qed.

(** X11: the emptiness test drives the conditional:
    [IF(NILP(l))(t)(e)] has the outcome of calling [t] when the list
    [l] is empty and of calling [e] when it is not. *)
Theorem IF_NILP_dispatch (xs : list value) (t e : value) :
  behaves_as (c <- call NILP [encode_list xs] ;; Ret IF_ $ c $ t $ e)
             (call (match xs with [] => t | _ :: _ => e end) []).
Proof.
  destruct xs as [|y rest].
  - eapply beh_trans;
      [apply beh_Call_value with (v := TRUE); exists 8%nat; reflexivity|].
    apply IF_TRUE_beh.
  - eapply beh_trans;
      [apply beh_Call_value with (v := FALSE); exists 8%nat; reflexivity|].
    apply IF_FALSE_beh.
Qed.

(** X12: a list calls exactly one of its two handlers: [NIL] the first,
    with no argument, and a [CONS] cell the second, with head and
    tail.  A first handler of one parameter therefore never runs its
    body: with [_VOID] in that place the outcome on [NIL] is still the
    argument-count [TypeError], not the message of [_VOID]. *)
Theorem list_dispatch (h t v w : value) :
  behaves_as (call NIL [v] $ w) (call v []) /\
  behaves_as (Ret CONS $ h $ t $ v $ w) (call w [h] $ t) /\
  run 3 (call NIL [_VOID] $ w) = Some (Fault TypeError_arguments).
Proof.
  repeat apply conj; try reflexivity.
  - eapply beh_trans; [apply beh_app_done with (n := 1%nat); reflexivity|].
    exact (beh_call_body (VClo NIL_onlist [v]) [w]).
  - eapply beh_trans; [apply beh_app_done with (n := 3%nat); reflexivity|].
    eapply beh_trans; [apply beh_call_body|]. apply beh_refl.
Qed.

(** ** Self-application *)

Lemma run_Call_none (n : nat) (f : value) (args : list value)
  (k : value -> comp) :
  run n (apply f args) = None -> run (S n) (Call f args k) = None.
Proof. intros H. simpl. rewrite H. reflexivity. Qed.

Lemma run_Call_done (n : nat) (f : value) (args : list value)
  (k : value -> comp) (v : value) :
  run n (apply f args) = Some (Done v) ->
  run (S n) (Call f args k) = run n (k v).
Proof. intros H. simpl. rewrite H. reflexivity. Qed.

Lemma U_of_U_never_returns (n : nat) : run n (call U [U]) = None.
Proof.
  induction n as [|n IH]; [reflexivity|].
  apply run_Call_none. exact IH.
Qed.

(** X13: [U(f)] is [f(f)]; on the identity that is the identity, and
    on [U] itself it never comes back. *)
Theorem U_self_application (f : value) :
  behaves_as (call U [f]) (call f [f]) /\
  run 2 (call U [ID]) = Some (Done ID) /\
  diverges ext_body (call U [U]).
Proof.
  repeat apply conj.
  - exact (beh_call_body U [f]).
  - reflexivity.
  - exact U_of_U_never_returns.
Qed.

Section EagerGenerator.

Variables F x0 : value.
Hypothesis F_calls_self_first :
  forall s n, run n (call s [x0]) = None -> run n (apply F [s]) = None.

Lemma call_F_none (s : value) (n : nat) :
  run n (call s [x0]) = None -> run n (call F [s]) = None.
Proof.
  intros H. destruct n as [|n]; [reflexivity|].
  apply run_Call_none. apply F_calls_self_first.
  apply run_none_anti with (m := S n); [exact H|lia].
Qed.

Lemma wrapper_body_none (n : nat) (k : value -> comp) :
  run n (call F [Y_self2 F]) = None ->
  run (S (S n))
      (Call (fn Y2_h) [fn Y2_h]
            (fun a => Call a [F] k)) = None.
Proof.
  intros H.
  rewrite run_Call_done with (v := VClo Y2_F [fn Y2_h])
    by (apply run_ret).
  apply run_Call_none. exact H.
Qed.

Lemma Y_self2_none (n : nat) : run n (call (Y_self2 F) [x0]) = None.
Proof.
  induction n as [|n IH]; [reflexivity|].
  apply run_Call_none.
  destruct n as [|[|n]]; try reflexivity.
  apply wrapper_body_none.
  apply call_F_none.
  apply run_none_anti with (m := S (S n)); [exact IH|lia].
Qed.

Lemma Y_self1_none (n : nat) : run n (call (Y_self1 F) [x0]) = None.
Proof.
  destruct n as [|n]; [reflexivity|].
  apply run_Call_none.
  destruct n as [|[|n]]; try reflexivity.
  apply wrapper_body_none.
  apply call_F_none. apply Y_self2_none.
Qed.

Lemma Y_eager_none (n : nat) : run n (call Y [F]) = None.
Proof.
  destruct n as [|n]; [reflexivity|].
  apply run_Call_none.
  apply call_F_none. apply Y_self1_none.
Qed.

End EagerGenerator.

(** X14: a generator that calls its self-argument before it returns
    (it cannot finish unless [self(x0)] finishes first) makes [Y(F)]
    itself run forever: the wrapper re-enters [F], which calls the
    wrapper again. *)
Theorem Y_diverges_on_eager_generator (F x0 : value) :
  (forall s n, run n (call s [x0]) = None -> run n (apply F [s]) = None) ->
  diverges ext_body (call Y [F]).
Proof. intros H n. apply Y_eager_none with (x0 := x0). exact H. Qed.

(** X15: [Y] is the [U] combinator applied to its own operand with the
    call written out: [U(h)] for the operand [h] hands [F] a wrapper
    too, and on every generator whose outcome depends on its
    self-argument only through one-argument applications of it,
    [U(h)(F)(x)] and [Y(F)(x)] behave alike: the same fault, the same
    non-termination, the same integer, string or [None], or functions
    that applications cannot tell apart. *)
Theorem Y_is_U_of_its_operand (F : value) :
  run 2 (call U [fn Y2_h]) = Some (Done (VClo Y2_F [fn Y2_h])) /\
  behaves_as (Ret U $ fn Y2_h $ F) (call F [Y_self2 F]) /\
  (uses_self_by_application ext_body F ->
   forall x, same_upto ext_body (indistinguishable ext_body)
                       (Ret U $ fn Y2_h $ F $ x) (Ret Y $ F $ x)).
Proof.
  assert (HU : behaves_as (Ret U $ fn Y2_h $ F) (call F [Y_self2 F])).
  { eapply beh_trans; [apply beh_app_done with (n := 2%nat); reflexivity|].
    exact (beh_call_body (VClo Y2_F [fn Y2_h]) [F]). }
  repeat apply conj; [reflexivity|exact HU|].
  intros HF x.
  assert (W : indistinguishable ext_body (Y_self2 F) (Y_self1 F)).
  { apply indistinguishable_sym. apply indistinguishable_of_app_equiv;
      [reflexivity|reflexivity|apply Y_selves_app_equiv]. }
  apply same_upto_beh
    with (c1' := g <- call F [Y_self2 F] ;; call g [x])
         (c2' := g <- call F [Y_self1 F] ;; call g [x]).
  - exact (beh_bind (fun g => call g [x]) (fun g => call g [x]) HU
                    (fun g => beh_refl (call g [x]))).
  - exact (beh_bind (fun g => call g [x]) (fun g => call g [x]) (Y_unfold F)
                    (fun g => beh_refl (call g [x]))).
  - apply same_upto_bind with (R := indistinguishable ext_body).
    + apply HF. exact W.
    + intros g1 g2 Hg. apply indistinguishable_call. exact Hg.
Qed.

(** ** The demonstration's functions *)

(** X16: the factorial obtained from [Y] returns 1 on every integer
    [n <= 0] without recursing, and on a string, on [None] and on a
    function it is the operand [TypeError] of [n <= 0]. *)
Theorem factorial_edges :
  (forall n : Z, n <= 0 ->
     run 3 (Ret Y $ fact_gen $ VInt n) = Some (Done (VInt 1)) /\
     callees ext_body 3 (Ret Y $ fact_gen $ VInt n)
       = [Y; fact_gen; VClo fact_n [Y_self1 fact_gen]]) /\
  (forall x : value,
     (exists s, x = VStr s) \/ x = VNone \/ callable x = true ->
     run 3 (Ret Y $ fact_gen $ x) = Some (Fault TypeError_operand)).
Proof.
  split.
  - intros n Hn. cbn. destruct (Z.leb_spec n 0); [|lia].
    split; reflexivity.
  - intros x [(s & ->)|[->|Hx]]; try reflexivity.
    destruct x; try discriminate; reflexivity.
Qed.

Lemma iter_call_scales (g : value) (c : Z) :
  (forall z, evals (call g [VInt z]) (Done (VInt (c * z)))) ->
  forall (k : nat) (z : Z),
    evals (iter_call k g (VInt z)) (Done (VInt (c ^ Z.of_nat k * z))).
Proof.
  intros Hg k z. induction k as [|k IH].
  - replace (c ^ Z.of_nat 0 * z) with z
      by (change (Z.of_nat 0) with 0; rewrite Z.pow_0_r; lia).
    apply evals_ret.
  - cbn [iter_call]. apply evals_bind. left.
    exists (VInt (c ^ Z.of_nat k * z)). split; [exact IH|].
    replace (c ^ Z.of_nat (S k) * z) with (c * (c ^ Z.of_nat k * z)).
    + apply Hg.
    + rewrite Nat2Z.inj_succ, Z.pow_succ_r by lia. ring.
Qed.

(** X17: a numeral iterates whatever it is given: if [g] multiplies by
    [c], then [numeral(k)(g)(z)] is [c ^ k * z] for every [k >= 0]; with
    the doubling function and seed 1 of the demonstration, [2 ^ k]. *)
Theorem numeral_of_a_scaling (g : value) (c : Z) :
  (forall z, evals (call g [VInt z]) (Done (VInt (c * z)))) ->
  forall (k : nat) (z : Z),
    evals (Ret numeral $ VInt (Z.of_nat k) $ g $ VInt z)
          (Done (VInt (c ^ Z.of_nat k * z))).
Proof.
  intros Hg k z.
  apply (numeral_unfold (VInt (Z.of_nat k)) g (VInt z)).
  apply (numeral_z_iter k g (VInt z)).
  apply iter_call_scales. exact Hg.
Qed.

End Evaluation.

(** ** The properties at a caller's callables *)

Example IF_with_a_raising_thunk :
  run host_body 8 (Ret IF_ $ TRUE $ VExt thunk_a [] $ VExt thunk_boom [])
    = Some (Done (VStr "a")) /\
  run host_body 8 (Ret IF_ $ FALSE $ VExt thunk_boom [] $ VExt thunk_b [])
    = Some (Done (VStr "b")) /\
  run host_body 8 (Ret IF_ $ FALSE $ VExt thunk_a [] $ VExt thunk_boom [])
    = Some (Fault (Exception "unselected branch was called")).
Proof. repeat apply conj; reflexivity. Qed.

Lemma natify_numeral_roundtrip_witness :
  0 <= 3 /\
  evals host_body (app_to natify (call numeral [VInt 3])) (Done (VInt 3)).
Proof.
  split; [lia|].
  apply (proj1 (natify_numeral_roundtrip host_body) 3). lia.
Defined.

Lemma natify_homomorphism_witness :
  0 <= 2 /\ 0 <= 3 /\
  evals host_body
        (a <- call numeral [VInt 2] ;;
         s1 <- call MULT [a] ;;
         b <- call numeral [VInt 3] ;;
         s <- call s1 [b] ;;
         call natify [s])
        (Done (VInt 6)).
Proof.
  assert (H2 : 0 <= 2) by lia. assert (H3 : 0 <= 3) by lia.
  split; [exact H2|]. split; [exact H3|].
  exact (proj2 (proj2 (natify_homomorphism host_body H2 H3))).
Defined.

Lemma numeral_construction_terminates_witness :
  -1 < 0 /\ diverges host_body (Ret numeral $ VInt (-1) $ INC $ VInt 0).
Proof.
  assert (H : -1 < 0) by lia. split; [exact H|].
  exact (proj2 (proj2 (numeral_construction_terminates host_body))
               (-1) INC (VInt 0) H).
Defined.


(** C2 fails as stated: [HEAD(NIL)] ends in the argument-count
    [TypeError], not in the failure that [_VOID] raises. *)
Lemma HEAD_NIL_is_not_the_void_failure :
  run host_body 8 (call HEAD [NIL]) = Some (Fault TypeError_arguments) /\
  ~ evals host_body (call HEAD [NIL])
      (Fault (Exception "Cannot invoke VOID!")).
Proof.
  split; [reflexivity|]. intros H.
  discriminate (evals_det H (evals_run host_body 8 (call HEAD [NIL]) eq_refl)).
Qed.


(** A curried generator: its result captures the self-argument, and it
    uses the self-argument by application only. *)
Lemma add_gen_uses_self_by_application :
  uses_self_by_application host_body add_gen.
Proof.
  intros s1 s2 Hs.
  apply same_upto_values
    with (v1 := VExt add_a [s1]) (v2 := VExt add_a [s2]);
    try (exists 1%nat; reflexivity).
  intros d. destruct d as [|d]; [exact I|].
  right. split; [reflexivity|]. split; [reflexivity|]. intros a.
  apply same_upto_values
    with (v1 := VExt add_b [s1; a]) (v2 := VExt add_b [s2; a]);
    try (exists 1%nat; reflexivity).
  destruct d as [|d]; [exact I|].
  right. split; [reflexivity|]. split; [reflexivity|]. intros b.
  apply same_upto_beh
    with (c1' := host_body add_b [s1; a] [b])
         (c2' := host_body add_b [s2; a] [b]);
    try (apply (beh_call_body host_body)).
  destruct a as [k| | | |];
    try (apply same_upto_refl; apply alike_refl).
  cbn. destruct (k <=? 0); [apply same_upto_refl; apply alike_refl|].
  apply same_upto_bind
    with (R := indistinguishable host_body)
         (c1 := call s1 [VInt (k - 1)]) (c2 := call s2 [VInt (k - 1)])
         (k1 := fun g => b' <- py_add1 b ;; call g [b'])
         (k2 := fun g => b' <- py_add1 b ;; call g [b']).
  - apply indistinguishable_call. exact Hs.
  - intros g1 g2 Hg.
    destruct b as [j| | | |];
      try (apply same_upto_refl; apply alike_refl).
    apply same_upto_weaken with (R := indistinguishable host_body);
      [intros v1 v2 Hv; apply Hv|].
    apply indistinguishable_call. exact Hg.
Qed.

Example Y_of_a_curried_generator :
  run host_body 64 (Ret Y $ add_gen $ VInt 3 $ VInt 4)
    = Some (Done (VInt 7)) /\
  run host_body 64
      (call add_gen [VExt add_a [Y_self1 add_gen]] $ VInt 3 $ VInt 4)
    = Some (Done (VInt 7)) /\
  forall x,
    same_upto host_body (indistinguishable host_body)
      (call (VExt add_a [Y_self1 add_gen]) [x])
      (call add_gen [VExt add_a [Y_self1 add_gen]] $ x).
Proof.
  split; [reflexivity|]. split; [reflexivity|].
  apply Y_fixed_point_of_applicative.
  - exact add_gen_uses_self_by_application.
  - exists 2%nat. reflexivity.
  - reflexivity.
Qed.

(** ** The further properties at concrete values *)

(** X18: the demonstration runs through without a fault; the values it
    formats are, in the order of its output: the numerals 0, 1, 2, 3, 7
    applied to the increment and 0, then to the doubling and 1; the
    decoded numerals 0, 1, 2, 3, 4, 8; the successors of 1, 2, 4, 8;
    2 + 8; 2 * 8; and the factorial of 5. *)
Theorem demonstration_values :
  map (run caller_body 64) driver =
  map (fun n => Some (Done (VInt n)))
      [0; 1; 2; 3; 7;  1; 2; 4; 8; 128;  0; 1; 2; 3; 4; 8;
       2; 3; 5; 9;  10;  16;  120].
Proof. vm_compute. reflexivity. Qed.

Lemma SUCC_is_successor_witness :
  is_numeral host_body 2 TWO /\
  exists s, evals host_body (call SUCC [TWO]) (Done s) /\
            is_numeral host_body 3 s.
Proof.
  assert (H := TWO_is_numeral host_body).
  split; [exact H|]. exact (SUCC_is_successor H).
Defined.

Lemma SUM_adds_witness :
  is_numeral host_body 2 TWO /\ is_numeral host_body 3 THREE /\
  exists s, evals host_body (Ret SUM $ TWO $ THREE) (Done s) /\
            is_numeral host_body (2 + 3) s.
Proof.
  assert (H2 := TWO_is_numeral host_body).
  assert (H3 := THREE_is_numeral host_body).
  split; [exact H2|]. split; [exact H3|]. exact (SUM_adds H2 H3).
Defined.

Lemma MULT_multiplies_witness :
  is_numeral host_body 2 TWO /\ is_numeral host_body 3 THREE /\
  exists s, evals host_body (Ret MULT $ TWO $ THREE) (Done s) /\
            is_numeral host_body (2 * 3) s.
Proof.
  assert (H2 := TWO_is_numeral host_body).
  assert (H3 := THREE_is_numeral host_body).
  split; [exact H2|]. split; [exact H3|]. exact (MULT_multiplies H2 H3).
Defined.

Lemma natify_decodes_numerals_witness :
  is_numeral host_body 3 THREE /\
  evals host_body (call natify [THREE]) (Done (VInt 3)).
Proof.
  assert (H3 := THREE_is_numeral host_body).
  split; [exact H3|]. exact (natify_decodes_numerals H3).
Defined.

Lemma numeral_of_non_integer_witness :
  is_int (VStr "a" : value host) = false /\
  run host_body 3 (Ret numeral $ VStr "a" $ INC $ VInt 0)
    = Some (Fault TypeError_operand).
Proof.
  split; [reflexivity|].
  exact (proj1 (proj2 (numeral_of_non_integer host_body (VStr "a") INC
                         (VInt 0) eq_refl))).
Defined.

Lemma non_callable_faults_at_use_witness :
  callable (VInt 5 : value host) = false /\
  run host_body 8 (call natify [VInt 5]) = Some (Fault TypeError_not_callable).
Proof.
  split; [reflexivity|].
  exact (proj1 (proj1 (non_callable_faults_at_use host_body (VInt 5) VNone
                         VNone eq_refl))).
Defined.

Lemma list_indexing_witness :
  (1 < List.length [VInt 10; VInt 20; VInt 30 : value host])%nat /\
  evals host_body
        (app_to HEAD
           (iter_call 1 TAIL (encode_list [VInt 10; VInt 20; VInt 30])))
        (Done (VInt 20)).
Proof.
  assert (H : (1 < List.length [VInt 10; VInt 20; VInt 30 : value host])%nat)
    by (simpl; lia).
  split; [exact H|].
  exact (proj1 (list_indexing host_body [VInt 10; VInt 20; VInt 30] VNone H)).
Defined.

Lemma list_end_witness :
  (List.length [VInt 10 : value host] < 3)%nat /\
  evals host_body (iter_call 3 TAIL (encode_list [VInt 10]))
        (Fault TypeError_arguments).
Proof.
  assert (H : (List.length [VInt 10 : value host] < 3)%nat) by (simpl; lia).
  split; [exact H|].
  exact (proj2 (proj2 (proj2 (list_end host_body [VInt 10]))) 3%nat H).
Defined.

Lemma Y_diverges_on_eager_generator_witness :
  (forall s n,
      run caller_body n (call s [VInt 0]) = None ->
      run caller_body n (apply caller_body (VExt eager_self []) [s]) = None) /\
  diverges caller_body (call Y [VExt eager_self []]).
Proof.
  assert (H : forall s n,
             run caller_body n (call s [VInt 0]) = None ->
             run caller_body n (apply caller_body (VExt eager_self []) [s])
             = None)
    by (intros s n Hs; exact Hs).
  split; [exact H|].
  apply Y_diverges_on_eager_generator with (x0 := VInt 0). exact H.
Defined.

Lemma Y_is_U_of_its_operand_witness :
  uses_self_by_application host_body fact_gen /\
  same_upto host_body (indistinguishable host_body)
            (Ret U $ fn Y2_h $ fact_gen $ VInt 5)
            (Ret Y $ fact_gen $ VInt 5).
Proof.
  assert (H : uses_self_by_application host_body fact_gen)
    by (exact (@fact_gen_uses_self_by_application host host_body)).
  split; [exact H|].
  exact (proj2 (proj2 (Y_is_U_of_its_operand host_body fact_gen)) H (VInt 5)).
Defined.

Lemma factorial_edges_witness :
  -2 <= 0 /\
  ((exists s, (VStr "five" : value host) = VStr s) \/
   (VStr "five" : value host) = VNone \/
   callable (VStr "five" : value host) = true) /\
  run host_body 3 (Ret Y $ fact_gen $ VInt (-2)) = Some (Done (VInt 1)) /\
  run host_body 3 (Ret Y $ fact_gen $ VStr "five")
    = Some (Fault TypeError_operand).
Proof.
  assert (H : -2 <= 0) by lia.
  assert (K : (exists s, (VStr "five" : value host) = VStr s) \/
              (VStr "five" : value host) = VNone \/
              callable (VStr "five" : value host) = true)
    by (left; exists "five"%string; reflexivity).
  split; [exact H|]. split; [exact K|]. split.
  - exact (proj1 (proj1 (factorial_edges host_body) (-2) H)).
  - exact (proj2 (factorial_edges host_body) (VStr "five") K).
Defined.

Lemma numeral_of_a_scaling_witness :
  (forall z, evals caller_body (call (VExt driver_double []) [VInt z])
                   (Done (VInt (2 * z)))) /\
  evals caller_body
        (Ret numeral $ VInt 7 $ VExt driver_double [] $ VInt 1)
        (Done (VInt 128)).
Proof.
  assert (H : forall z,
             evals caller_body (call (VExt driver_double []) [VInt z])
                   (Done (VInt (2 * z))))
    by (intros z; exists 1%nat; reflexivity).
  split; [exact H|].
  exact (numeral_of_a_scaling 2 H 7 1).
Defined.
